(** * WG-server: the scheduled scrape-and-persist pipeline of [app.js]

    A shallow embedding of [fetchDataAndSaveToDB], of the two routes that
    touch the [price] table ([GET /update], [GET /prices]) and of the daily
    cron registration of [startServer], together with the behaviour of the
    libraries they call (cheerio selections, [parseFloat], Prisma's
    [createMany] and [findMany] over the table of [migration.sql]); then
    of the middleware [authenticateToken], the routes on accounts and
    displays, the order in which the routes are registered, and the start
    and stop of the server with [connect] and [end] of the store module.

    Conventions.
    - A JavaScript string is the list of its UTF-16 code units.
    - The document the loop works on is the tree cheerio builds; the HTML
      parser itself is a parameter of a run ([html_parser]), and claims
      about markup are stated on the tree it yields.
    - [parseFloat] returns either [NaN], an infinity, or the exact decimal
      value it read; rounding that value to a double is not modelled (it
      never turns a number into [NaN] or back).
    - [orderID] and [id] are unbounded integers ([Z]); timestamps are
      integers.
    - What the outside world does during a run (the answer to the request,
      a failure of the store, the clock) is an argument of the run. *)

From Stdlib Require Import List ZArith NArith Bool Arith Lia String Ascii.
From Stdlib Require Import Sorting.Sorted Sorting.Permutation.
Import ListNotations.

Set Implicit Arguments.
Local Open Scope Z_scope.

(* ================================================================== *)
(** * JavaScript strings *)

Definition JSString := list N.

(** A source literal, as the code units of its ASCII characters. *)
Definition js (s : string) : JSString :=
  map N_of_ascii (list_ascii_of_string s).

Fixpoint jseqb (a b : JSString) : bool :=
  match a, b with
  | [], [] => true
  | x :: a', y :: b' => N.eqb x y && jseqb a' b'
  | _, _ => false
  end.

Fixpoint starts_with (pre s : JSString) : bool :=
  match pre, s with
  | [], _ => true
  | x :: pre', y :: s' => N.eqb x y && starts_with pre' s'
  | _ :: _, [] => false
  end.

(* ================================================================== *)
(** * [parseFloat] (ECMAScript, 19.2.4) *)

Inductive JSNumber :=
| NaN
| Infinity (negative : bool)
| Finite (negative : bool) (mantissa : N) (exponent : Z).
(** [Finite s m e] stands for the double nearest to [(-1)^s * m * 10^e]. *)

(** WhiteSpace and LineTerminator code units, as stripped by TrimString. *)
Definition isStrWhiteSpaceChar (c : N) : bool :=
  (N.eqb c 9 || N.eqb c 10 || N.eqb c 11 || N.eqb c 12 || N.eqb c 13
   || N.eqb c 32 || N.eqb c 160 || N.eqb c 5760
   || (N.leb 8192 c && N.leb c 8202)
   || N.eqb c 8232 || N.eqb c 8233 || N.eqb c 8239 || N.eqb c 8287
   || N.eqb c 12288 || N.eqb c 65279)%N.

Fixpoint TrimStart (s : JSString) : JSString :=
  match s with
  | c :: s' => if isStrWhiteSpaceChar c then TrimStart s' else s
  | [] => []
  end.

Definition isDecimalDigit (c : N) : bool := (N.leb 48 c && N.leb c 57)%N.
Definition isExponentIndicator (c : N) : bool := (N.eqb c 101 || N.eqb c 69)%N.
Definition PLUS : N := 43%N.
Definition MINUS : N := 45%N.
Definition DOT : N := 46%N.

(** The longest run of decimal digits at the head of [s], and what follows. *)
Fixpoint span_digits (s : JSString) : JSString * JSString :=
  match s with
  | c :: s' =>
      if isDecimalDigit c
      then let (ds, r) := span_digits s' in (c :: ds, r)
      else ([], s)
  | [] => ([], [])
  end.

Definition digits_value (ds : JSString) : N :=
  fold_left (fun acc c => 10 * acc + (c - 48))%N ds 0%N.

(** The value of an ExponentPart at the head of [s]; 0 when there is none
    (an [e] that no digit follows belongs to the rest of the text). *)
Definition exponent_part (s : JSString) : Z :=
  match s with
  | c :: s1 =>
      if isExponentIndicator c then
        match s1 with
        | d :: s2 =>
            if N.eqb d PLUS then Z.of_N (digits_value (fst (span_digits s2)))
            else if N.eqb d MINUS
                 then - Z.of_N (digits_value (fst (span_digits s2)))
                 else Z.of_N (digits_value (fst (span_digits s1)))
        | [] => 0
        end
      else 0
  | [] => 0
  end.

(** The longest StrUnsignedDecimalLiteral at the head of [s]. *)
Definition parseUnsigned (negative : bool) (s : JSString) : JSNumber :=
  if starts_with (js "Infinity") s then Infinity negative
  else
    let (ip, r) := span_digits s in
    match ip, r with
    | _ :: _, c :: r' =>
        if N.eqb c DOT then
          let (fp, r'') := span_digits r' in
          Finite negative (digits_value (ip ++ fp))
                 (exponent_part r'' - Z.of_nat (List.length fp))
        else Finite negative (digits_value ip) (exponent_part r)
    | _ :: _, [] => Finite negative (digits_value ip) 0
    | [], c :: r' =>
        if N.eqb c DOT then
          let (fp, r'') := span_digits r' in
          match fp with
          | [] => NaN
          | _ :: _ =>
              Finite negative (digits_value fp)
                     (exponent_part r'' - Z.of_nat (List.length fp))
          end
        else NaN
    | [], [] => NaN
    end.

Definition parseFloat (string : JSString) : JSNumber :=
  match TrimStart string with
  | c :: t =>
      if N.eqb c PLUS then parseUnsigned false t
      else if N.eqb c MINUS then parseUnsigned true t
           else parseUnsigned false (c :: t)
  | [] => NaN
  end.

(** ** The grammar StrDecimalLiteral, as the standard writes it *)

Definition DecimalDigits (ds : JSString) : Prop :=
  ds <> [] /\ Forall (fun c => isDecimalDigit c = true) ds.

Definition opt (P : JSString -> Prop) (s : JSString) : Prop := s = [] \/ P s.

Inductive SignedInteger : JSString -> Prop :=
| SI_digits ds : DecimalDigits ds -> SignedInteger ds
| SI_plus ds : DecimalDigits ds -> SignedInteger (PLUS :: ds)
| SI_minus ds : DecimalDigits ds -> SignedInteger (MINUS :: ds).

Inductive ExponentPart : JSString -> Prop :=
| EP c si : isExponentIndicator c = true -> SignedInteger si ->
            ExponentPart (c :: si).

Inductive StrUnsignedDecimalLiteral : JSString -> Prop :=
| SU_Infinity : StrUnsignedDecimalLiteral (js "Infinity")
| SU_int_dot ip fp ep :
    DecimalDigits ip -> opt DecimalDigits fp -> opt ExponentPart ep ->
    StrUnsignedDecimalLiteral (ip ++ DOT :: fp ++ ep)
| SU_dot fp ep :
    DecimalDigits fp -> opt ExponentPart ep ->
    StrUnsignedDecimalLiteral (DOT :: fp ++ ep)
| SU_int ip ep :
    DecimalDigits ip -> opt ExponentPart ep ->
    StrUnsignedDecimalLiteral (ip ++ ep).

Inductive StrDecimalLiteral : JSString -> Prop :=
| SD_unsigned u : StrUnsignedDecimalLiteral u -> StrDecimalLiteral u
| SD_plus u : StrUnsignedDecimalLiteral u -> StrDecimalLiteral (PLUS :: u)
| SD_minus u : StrUnsignedDecimalLiteral u -> StrDecimalLiteral (MINUS :: u).

(** The text begins with a number: some prefix of it is a StrDecimalLiteral
    once the leading white space is dropped. *)
Definition begins_with_number (s : JSString) : Prop :=
  exists lit rest, TrimStart s = lit ++ rest /\ StrDecimalLiteral lit.

(** The text is a number: one StrDecimalLiteral, with nothing but white
    space around it. *)
Definition numeric_text (s : JSString) : Prop :=
  exists ws1 lit ws2,
    s = ws1 ++ lit ++ ws2 /\
    forallb isStrWhiteSpaceChar ws1 = true /\
    forallb isStrWhiteSpaceChar ws2 = true /\
    StrDecimalLiteral lit.

(** The code units a literal can be made of. *)
Definition literal_char (c : N) : bool :=
  isDecimalDigit c || isExponentIndicator c
  || existsb (N.eqb c) (PLUS :: MINUS :: DOT :: js "Infinity").

(* ================================================================== *)
(** * The document tree and cheerio selections *)

Unset Elimination Schemes.
Inductive Node :=
| Element (name : JSString) (classes : list JSString) (children : list Node)
| Text (data : JSString)
| Comment (data : JSString).
Set Elimination Schemes.

(** Induction on a node, with the property at hand for all its children. *)
Section Node_induction.
Variable P : Node -> Prop.
Hypothesis P_Element :
  forall name classes cs, Forall P cs -> P (Element name classes cs).
Hypothesis P_Text : forall d, P (Text d).
Hypothesis P_Comment : forall d, P (Comment d).

Fixpoint Node_ind (n : Node) : P n :=
  match n with
  | Element name classes cs =>
      P_Element name classes
        ((fix all (l : list Node) : Forall P l :=
            match l with
            | [] => Forall_nil P
            | c :: l' => Forall_cons c (Node_ind c) (all l')
            end) cs)
  | Text d => P_Text d
  | Comment d => P_Comment d
  end.
End Node_induction.

(** The loaded document: the children of its root. *)
Definition Dom := list Node.

(** A node is identified by its position: the child indices from the node
    up to the root (nearest first), so that the parent chain of a node is
    the chain of proper tails of its path. *)
Definition Path := list nat.
Definition Located : Type := Path * Node.

Fixpoint path_eqb (p q : Path) : bool :=
  match p, q with
  | [], [] => true
  | i :: p', j :: q' => Nat.eqb i j && path_eqb p' q'
  | _, _ => false
  end.

(** [is_ancestor q p]: the node at [q] is a proper ancestor of the node at
    [p] (walk the parent chain of [p] and compare with [q]). *)
Fixpoint is_ancestor (q p : Path) : bool :=
  match p with
  | [] => false
  | _ :: parent => path_eqb q parent || is_ancestor q parent
  end.

(** Document order: a node, then its children's subtrees from left to
    right. *)
Fixpoint preorder (p : Path) (n : Node) {struct n} : list Located :=
  (p, n) ::
  match n with
  | Element _ _ cs =>
      (fix go (i : nat) (l : list Node) {struct l} : list Located :=
         match l with
         | [] => []
         | c :: l' => preorder (i :: p) c ++ go (S i) l'
         end) 0%nat cs
  | _ => []
  end.

Fixpoint preorder_list (p : Path) (i : nat) (l : list Node) : list Located :=
  match l with
  | [] => []
  | c :: l' => preorder (i :: p) c ++ preorder_list p (S i) l'
  end.

Definition nodes (doc : Dom) : list Located := preorder_list [] 0 doc.

Inductive Selector :=
| ByClass (c : JSString)      (* ".c" *)
| ByTag (name : JSString).    (* "name" *)

Definition matches (sel : Selector) (n : Node) : bool :=
  match n with
  | Element name classes _ =>
      match sel with
      | ByClass c => existsb (jseqb c) classes
      | ByTag t => jseqb t name
      end
  | _ => false
  end.

(** A cheerio object: the selected elements, in document order. *)
Definition Cheerio := list Located.

(** [$(selector)]: every element of the document that matches, in document
    order. *)
Definition select (doc : Dom) (sel : Selector) : Cheerio :=
  filter (fun x => matches sel (snd x)) (nodes doc).

Definition has_ancestor_in (ctx : Cheerio) (x : Located) : bool :=
  existsb (fun c => is_ancestor (fst c) (fst x)) ctx.

(** [ctx.find(selector)]: the descendants of the elements of [ctx] that
    match, each once, in document order (cheerio walks the subtrees of the
    context elements, leaving out a context element that lies inside
    another one; for a context in document order the result is this). *)
Definition find (doc : Dom) (sel : Selector) (ctx : Cheerio) : Cheerio :=
  filter (fun x => matches sel (snd x) && has_ancestor_in ctx x) (nodes doc).

Fixpoint textContent (n : Node) : JSString :=
  match n with
  | Element _ _ cs => flat_map textContent cs
  | Text d => d
  | Comment _ => []
  end.

(** [.text()]: the text contents of the selected elements, concatenated. *)
Definition text (sel : Cheerio) : JSString :=
  flat_map (fun x => textContent (snd x)) sel.

(** ** Counting and nesting, by recursion on the tree alone *)

Fixpoint count_matching (sel : Selector) (n : Node) : nat :=
  ((if matches sel n then 1 else 0) +
   match n with
   | Element _ _ cs => list_sum (map (count_matching sel) cs)
   | _ => 0
   end)%nat.

Definition count_in (sel : Selector) (doc : Dom) : nat :=
  list_sum (map (count_matching sel) doc).

(** The elements matching [inner] that lie strictly below an element
    matching [outer]; [inside] tells whether such an element has already
    been passed on the way down. *)
Fixpoint nested_under (outer inner : Selector) (inside : bool) (n : Node)
  : list Node :=
  (if inside && matches inner n then [n] else []) ++
  match n with
  | Element _ _ cs =>
      flat_map (nested_under outer inner (inside || matches outer n)) cs
  | _ => []
  end.

Definition nested_in (outer inner : Selector) (doc : Dom) : list Node :=
  flat_map (nested_under outer inner false) doc.

(** The elements of the subtree of [n] that match, [n] included, and those
    strictly below [n]. *)
Fixpoint all_matching (sel : Selector) (n : Node) : list Node :=
  (if matches sel n then [n] else []) ++
  match n with
  | Element _ _ cs => flat_map (all_matching sel) cs
  | _ => []
  end.

Definition matching_below (sel : Selector) (n : Node) : list Node :=
  match n with
  | Element _ _ cs => flat_map (all_matching sel) cs
  | _ => []
  end.

(* ================================================================== *)
(** * The extraction loop of [fetchDataAndSaveToDB] *)

Definition fact_wrapper : Selector := ByClass (js "key-facts-full__fact-wrapper").
Definition fact_figure : Selector := ByClass (js "key-facts-full__figure").
Definition fact_description : Selector :=
  ByClass (js "key-facts-full__description").
Definition fact_quote : Selector := ByClass (js "key-facts-full__quote").
Definition p_tag : Selector := ByTag (js "p").

(** The objects pushed on [prices]. *)
Module Scraped.
Record t := mk
  { orderID : Z; figure : JSNumber; description : JSString;
    quote : JSString }.
End Scraped.

(** What the callback reads for the element [this] of the document. *)
Definition figure_text (doc : Dom) (this : Located) : JSString :=
  text (find doc fact_figure [this]).
Definition description_text (doc : Dom) (this : Located) : JSString :=
  text (find doc fact_description [this]).
Definition quote_text (doc : Dom) : JSString :=
  text (find doc p_tag (select doc fact_quote)).

(** One call of the callback of [.each], on the state [(prices, orderID)]:
<<
      const figure = parseFloat($(this).find(".key-facts-full__figure").text());
      const description = $(this).find(".key-facts-full__description").text();
      const quote = $(".key-facts-full__quote").find("p").text();
      prices.push({ orderID, figure, description, quote });
      orderID++;
>> *)
Definition each_callback (doc : Dom) (st : list Scraped.t * Z)
           (this : Located) : list Scraped.t * Z :=
  let (prices, orderID) := st in
  let figure := parseFloat (figure_text doc this) in
  let description := description_text doc this in
  let quote := quote_text doc in
  (prices ++ [Scraped.mk orderID figure description quote], orderID + 1).

(** [prices] after the loop
<<
    const prices = [];
    let orderID = 1;
    $(".key-facts-full__fact-wrapper").each(function () { ... });
>> *)
Definition prices (doc : Dom) : list Scraped.t :=
  fst (fold_left (each_callback doc) (select doc fact_wrapper) ([], 1)).

(** The objects the loop is expected to build for the wrappers [ws], the
    first of them numbered [k]. *)
Fixpoint records_from (doc : Dom) (k : Z) (ws : list Located)
  : list Scraped.t :=
  match ws with
  | [] => []
  | w :: ws' =>
      Scraped.mk k (parseFloat (figure_text doc w)) (description_text doc w)
                 (quote_text doc)
      :: records_from doc (k + 1) ws'
  end.

(** The same readings, by recursion on the tree: the wrapper elements of
    the document in document order, the texts inside one wrapper, and the
    text of the paragraphs inside the quote blocks. *)
Definition wrappers (doc : Dom) : list Node :=
  flat_map (all_matching fact_wrapper) doc.
Definition figure_text_of (wrapper : Node) : JSString :=
  flat_map textContent (matching_below fact_figure wrapper).
Definition description_text_of (wrapper : Node) : JSString :=
  flat_map textContent (matching_below fact_description wrapper).
Definition quote_text_of (doc : Dom) : JSString :=
  flat_map textContent (nested_in fact_quote p_tag doc).

(* ================================================================== *)
(** * The [price] table ([migration.sql]) and Prisma's calls on it *)

Module price.
Record row := mk
  { id : Z; orderID : Z; figure : JSNumber; quote : JSString;
    description : JSString; created_at : Z }.
End price.

(** The [data] objects handed to [createMany]. *)
Module PriceCreateManyInput.
Record t := mk
  { orderID : Z; figure : JSNumber; description : JSString;
    quote : JSString; created_at : Z }.
End PriceCreateManyInput.

(** A unique index tells when two rows collide on it. *)
Definition UniqueIndex := price.row -> price.row -> bool.

(** [CONSTRAINT "price_pkey" PRIMARY KEY ("id")]: the only uniqueness
    constraint the migration declares on [price]. *)
Definition price_pkey : UniqueIndex :=
  fun a b => Z.eqb (price.id a) (price.id b).

Definition price_unique_indexes : list UniqueIndex := [price_pkey].

Definition collides (indexes : list UniqueIndex) (table : list price.row)
           (r : price.row) : bool :=
  existsb (fun u => existsb (fun old => u old r) table) indexes.

(** ["id" SERIAL]: the row gets the next value of the sequence. *)
Definition row_of (next_id : Z) (d : PriceCreateManyInput.t) : price.row :=
  price.mk next_id (PriceCreateManyInput.orderID d)
           (PriceCreateManyInput.figure d) (PriceCreateManyInput.quote d)
           (PriceCreateManyInput.description d)
           (PriceCreateManyInput.created_at d).

(** [INSERT INTO "price" ... VALUES ...], with [ON CONFLICT DO NOTHING] when
    [skipDuplicates] is set: rows are taken in order, each draws an [id],
    a row that collides with a stored one on a unique index is skipped
    (or, without [skipDuplicates], fails the statement).
    Result: table, sequence, number of rows inserted, success. *)
Fixpoint insert_values (indexes : list UniqueIndex) (skipDuplicates : bool)
         (table : list price.row) (next_id : Z)
         (data : list PriceCreateManyInput.t)
  : list price.row * Z * nat * bool :=
  match data with
  | [] => (table, next_id, 0%nat, true)
  | d :: ds =>
      let r := row_of next_id d in
      if collides indexes table r then
        if skipDuplicates
        then insert_values indexes skipDuplicates table (next_id + 1) ds
        else (table, next_id + 1, 0%nat, false)
      else
        let '(t, s, c, ok) :=
          insert_values indexes skipDuplicates (table ++ [r]) (next_id + 1) ds
        in (t, s, S c, ok)
  end.

(** The rows a batch becomes when nothing collides. *)
Fixpoint rows_from (next_id : Z) (data : list PriceCreateManyInput.t)
  : list price.row :=
  match data with
  | [] => []
  | d :: ds => row_of next_id d :: rows_from (next_id + 1) ds
  end.

(** [ORDER BY id DESC]: insertion into a list sorted by decreasing [id]. *)
Fixpoint insert_desc (r : price.row) (l : list price.row) : list price.row :=
  match l with
  | [] => [r]
  | x :: l' =>
      if Z.leb (price.id x) (price.id r) then r :: l
      else x :: insert_desc r l'
  end.

Definition orderBy_id_desc (l : list price.row) : list price.row :=
  fold_right insert_desc [] l.

(** Orders on rows by surrogate key: [a] does not come after [b] in a
    list sorted by decreasing key. *)
Definition id_ge (a b : price.row) : Prop := price.id b <= price.id a.
Definition id_gt (a b : price.row) : Prop := price.id b < price.id a.

(* ================================================================== *)
(** * The process: store, console, and asynchronous calls *)

Definition Error := string.
Definition Html := JSString.

Inductive Logged :=
| LoggedCount (count : nat)             (* { count } *)
| LoggedRows (rows : list price.row)
| LoggedError (e : Error).

Inductive LogEntry :=
| console_log_entry (message : string) (v : Logged)
| console_error_entry (message : string) (v : Logged).

Record World := mkWorld
  { price_table : list price.row;   (* the rows, in insertion order *)
    price_id_seq : Z;               (* next value of the SERIAL sequence *)
    console : list LogEntry }.

(** A settled promise. *)
Inductive Outcome (A : Type) :=
| Resolved (a : A)
| Rejected (e : Error).
Arguments Resolved {A} a.
Arguments Rejected {A} e.

(** What the outside world does during one run or one request. *)
Record Env := mkEnv
  { http_response : Outcome Html;        (* axios.get(process.env.URL) *)
    html_parser : Html -> Outcome Dom;   (* cheerio.load *)
    db_failure : option Error;           (* connection-level failure *)
    clock : nat -> Z }.                  (* the k-th new Date() *)

Definition Async (A : Type) : Type := Env -> World -> Outcome A * World.

Definition ret {A} (a : A) : Async A := fun _ w => (Resolved a, w).
Definition throw {A} (e : Error) : Async A := fun _ w => (Rejected e, w).
Definition bind {A B} (m : Async A) (k : A -> Async B) : Async B :=
  fun env w =>
    match m env w with
    | (Resolved a, w') => k a env w'
    | (Rejected e, w') => (Rejected e, w')
    end.
(** [try { body } catch (error) { handler }] *)
Definition try_catch {A} (body : Async A) (handler : Error -> Async A)
  : Async A :=
  fun env w =>
    match body env w with
    | (Resolved a, w') => (Resolved a, w')
    | (Rejected e, w') => handler e env w'
    end.

Notation "x <- m ;; k" := (bind m (fun x => k))
  (at level 61, m at next level, right associativity).
Notation "m ;;; k" := (bind m (fun _ => k))
  (at level 61, right associativity).

Definition axios_get : Async Html :=
  fun env w => (http_response env, w).

Definition cheerio_load (html : Html) : Async Dom :=
  fun env w => (html_parser env html, w).

Definition console_log (message : string) (v : Logged) : Async unit :=
  fun _ w =>
    (Resolved tt,
     mkWorld (price_table w) (price_id_seq w)
             (console w ++ [console_log_entry message v])).

Definition console_error (message : string) (v : Logged) : Async unit :=
  fun _ w =>
    (Resolved tt,
     mkWorld (price_table w) (price_id_seq w)
             (console w ++ [console_error_entry message v])).

(** [db.prisma.price.createMany({ data, skipDuplicates })] *)
Definition prisma_price_createMany (data : list PriceCreateManyInput.t)
           (skipDuplicates : bool) : Async nat :=
  fun env w =>
    match db_failure env with
    | Some e => (Rejected e, w)
    | None =>
        let '(t, s, c, ok) :=
          insert_values price_unique_indexes skipDuplicates
                        (price_table w) (price_id_seq w) data in
        if ok then (Resolved c, mkWorld t s (console w))
        else (Rejected "Unique constraint failed"%string,
              mkWorld (price_table w) s (console w))
    end.

(** [db.prisma.price.findMany({ take, orderBy: { id: "desc" } })] *)
Definition prisma_price_findMany_desc (take : nat) : Async (list price.row) :=
  fun env w =>
    match db_failure env with
    | Some e => (Rejected e, w)
    | None => (Resolved (firstn take (orderBy_id_desc (price_table w))), w)
    end.

(** [prices.map((price) => ({ ..., created_at: new Date() }))] *)
Fixpoint map_with_date (now : nat -> Z) (k : nat) (l : list Scraped.t)
  : list PriceCreateManyInput.t :=
  match l with
  | [] => []
  | price :: l' =>
      PriceCreateManyInput.mk (Scraped.orderID price) (Scraped.figure price)
                              (Scraped.description price)
                              (Scraped.quote price) (now k)
      :: map_with_date now (S k) l'
  end.

Definition new_Date_map (l : list Scraped.t)
  : Async (list PriceCreateManyInput.t) :=
  fun env w => (Resolved (map_with_date (clock env) 0 l), w).

(* ================================================================== *)
(** * [fetchDataAndSaveToDB] *)

(** The [try] block:
<<
    const response = await axios.get(url);
    const html = response.data;
    const $ = cheerio.load(html);
    ... the loop ...
    const createdPrices = await db.prisma.price.createMany({
      data: prices.map((price) => ({ ..., created_at: new Date() })),
      skipDuplicates: true,
    });
    console.log("Prices inserted into PostgreSQL:", createdPrices);
>> *)
Definition fetchDataAndSaveToDB_try : Async unit :=
  html <- axios_get ;;
  doc <- cheerio_load html ;;
  data <- new_Date_map (prices doc) ;;
  createdPrices <- prisma_price_createMany data true ;;
  console_log "Prices inserted into PostgreSQL:" (LoggedCount createdPrices).

(** The function: the block above, and
<<
    catch (error) {
      console.error("Error fetching data and saving to DB", error);
    }
>> *)
Definition fetchDataAndSaveToDB : Async unit :=
  try_catch fetchDataAndSaveToDB_try
    (fun error =>
       console_error "Error fetching data and saving to DB"
                     (LoggedError error)).

(** The first stage of a run that fails, if any: the request, the parser,
    or the store. *)
Definition stage_failure (env : Env) : option Error :=
  match http_response env with
  | Rejected e => Some e
  | Resolved html =>
      match html_parser env html with
      | Rejected e => Some e
      | Resolved _ => db_failure env
      end
  end.

(** The world after a run whose stages all succeed on the document
    [doc]. *)
Definition after_insert (env : Env) (w : World) (doc : Dom) : World :=
  let '(t, s, c, _) :=
    insert_values price_unique_indexes true (price_table w) (price_id_seq w)
                  (map_with_date (clock env) 0 (prices doc)) in
  mkWorld t s
          (console w ++
           [console_log_entry "Prices inserted into PostgreSQL:"
                              (LoggedCount c)]).

Definition log_failure (e : Error) (w : World) : World :=
  mkWorld (price_table w) (price_id_seq w)
          (console w ++
           [console_error_entry "Error fetching data and saving to DB"
                                (LoggedError e)]).

(* ================================================================== *)
(** * The routes on the price table *)

Inductive Body :=
| Send (text : string)
| JsonRows (rows : list price.row)
| JsonError (error : string).

Record Response := mkResponse { status : Z; body : Body }.

(** [.then(onFulfilled).catch(onRejected)] on the promise of a call. *)
Definition then_catch {A B} (m : Async A) (onFulfilled : A -> Async B)
           (onRejected : Error -> Async B) : Async B :=
  try_catch (bind m onFulfilled) onRejected.

(** [app.get("/update", ...)]:
<<
    fetchDataAndSaveToDB()
      .then(() => { res.status(200).send("Data updated"); })
      .catch((error) => { res.status(500).send("Error updating data"); });
>> *)
Definition get_update : Async Response :=
  then_catch fetchDataAndSaveToDB
    (fun _ => ret (mkResponse 200 (Send "Data updated")))
    (fun error => ret (mkResponse 500 (Send "Error updating data"))).

(** [app.get("/prices", ...)]:
<<
    try {
      const prices = await db.prisma.price.findMany({
        take: 5, orderBy: { id: "desc" } });
      console.log("Data fetched", prices);
      res.json(prices);
    } catch (error) {
      console.error("Error :", error);
      res.status(500).json({ error: "Error fetching data" });
    }
>> *)
Definition get_prices : Async Response :=
  try_catch
    (prices <- prisma_price_findMany_desc 5 ;;
     console_log "Data fetched" (LoggedRows prices) ;;;
     ret (mkResponse 200 (JsonRows prices)))
    (fun error =>
       console_error "Error :" (LoggedError error) ;;;
       ret (mkResponse 500 (JsonError "Error fetching data"))).

(* ================================================================== *)
(** * The daily schedule of [startServer] *)

(** The host process: running in some state, or brought down.  A task
    whose promise is rejected counts as bringing the process down (there is
    no handler for it in [app.js]). *)
Inductive Process :=
| Running (w : World)
| Down.

(** One firing of [cron.schedule("10 3 * * *", fetchDataAndSaveToDB)]. *)
Definition cron_fire (env : Env) (w : World) : Process :=
  match fetchDataAndSaveToDB env w with
  | (Resolved _, w') => Running w'
  | (Rejected _, _) => Down
  end.

(** The schedule: one firing per day, as long as the process runs. *)
Fixpoint cron_schedule (days : list Env) (w : World) : Process :=
  match days with
  | [] => Running w
  | env :: rest =>
      match cron_fire env w with
      | Running w' => cron_schedule rest w'
      | Down => Down
      end
  end.

(* ================================================================== *)
(** * The spec's reading of a non-numeric figure, and an idempotent schema *)

(** The sentence of the spec on non-numeric figures, read with "numeric"
    as "the text is a number": the record of a wrapper whose figure text
    is not a number has [NaN] as figure. *)
Definition nonnumeric_figure_gives_NaN : Prop :=
  forall doc i wrapper,
    nth_error (wrappers doc) i = Some wrapper ->
    ~ numeric_text (figure_text_of wrapper) ->
    exists r, nth_error (prices doc) i = Some r /\ Scraped.figure r = NaN.

(** A unique index over [(orderID, description, quote)], which the
    migration does not declare. *)
Definition natural_key : UniqueIndex :=
  fun a b =>
    Z.eqb (price.orderID a) (price.orderID b)
    && jseqb (price.description a) (price.description b)
    && jseqb (price.quote a) (price.quote b).

(** The keys of the table are distinct and behind the sequence, as they
    are when [id] is only ever drawn from the sequence. *)
Definition keys_from_sequence (w : World) : Prop :=
  NoDup (map price.id (price_table w)) /\
  forall r, In r (price_table w) -> price.id r < price_id_seq w.

(* ================================================================== *)
(** * Sample pages, worlds and environments *)

Definition div (class : string) (children : list Node) : Node :=
  Element (js "div") [js class] children.

Definition paragraph (t : string) : Node :=
  Element (js "p") [] [Text (js t)].

Definition fact (figure description : string) : Node :=
  div "key-facts-full__fact-wrapper"
      [div "key-facts-full__figure" [Text (js figure)];
       div "key-facts-full__description" [Text (js description)]].

(** Three wrappers with figures 12.5, abc and 7, and one quote. *)
Definition fixture : Dom :=
  [fact "12.5" "first"; fact "abc" "second"; fact "7" "third";
   div "key-facts-full__quote" [paragraph "Test quote"]].

(** A figure that starts with digits and goes on with letters. *)
Definition page_12abc : Dom :=
  [fact "12abc" "first"; div "key-facts-full__quote" [paragraph "q"]].

(** A page without any wrapper. *)
Definition page_without_facts : Dom :=
  [div "header" [Text (js "nothing here")];
   div "key-facts-full__quote" [paragraph "q"]].

(** Two quote blocks, the first with two paragraphs and a nested block. *)
Definition page_two_quotes : Dom :=
  [fact "1" "only";
   div "key-facts-full__quote"
       [paragraph "A";
        div "key-facts-full__quote" [paragraph "B"]];
   div "key-facts-full__quote" [paragraph "C"]].

Definition serving (doc : Dom) : Env :=
  mkEnv (Resolved (js "<html>")) (fun _ => Resolved doc) None
        (fun k => Z.of_nat k).

Definition timing_out : Env :=
  mkEnv (Rejected "ETIMEDOUT"%string) (fun _ => Resolved []) None
        (fun _ => 0).

Definition unparsable : Env :=
  mkEnv (Resolved (js "{}")) (fun _ => Rejected "not markup"%string) None
        (fun _ => 0).

Definition store_down (doc : Dom) : Env :=
  mkEnv (Resolved (js "<html>")) (fun _ => Resolved doc)
        (Some "ECONNREFUSED"%string) (fun _ => 0).

Definition empty_world : World := mkWorld [] 1 [].

(** The batch of the fixture, as handed to [createMany]. *)
Definition fixture_batch : list PriceCreateManyInput.t :=
  map_with_date (fun k => Z.of_nat k) 0 (prices fixture).

(** Ten facts, and the world after they have been inserted. *)
Definition ten_facts : list PriceCreateManyInput.t :=
  map (fun k => PriceCreateManyInput.mk (Z.of_nat k) (Finite false 1 0)
                                        (js "d") (js "q") 0)
      (seq 1 10).

Definition world_with_ten_rows : World :=
  snd (prisma_price_createMany ten_facts true (serving []) empty_world).

(* ================================================================== *)
(** * Accounts and displays: the tables of [migration.sql]

    Request fields are strings or absent; the payload of a verified token
    is the [userId] it was signed with.  [jsonwebtoken] and [bcrypt] are
    parameters of a request ([Libs]); so are its clock, the salt drawn by
    [bcrypt.hash], and the statements on which the store fails. *)

Definition Json := JSString.

Module user.
Record row := mk
  { id : Z; username : JSString; email : JSString; password : JSString;
    profileImage : option JSString }.
End user.

Module display.
Record row := mk
  { id : Z; display_id : JSString; type : JSString; ipAddress : JSString;
    data : option Json; userId : Z; isActive : bool; location : JSString;
    createdAt : Z }.
End display.

(** A line of the console: [console.log(message)] or
    [console.error(message, error)]. *)
Inductive Line :=
| log_line (message : string)
| log_value (message : string) (value : JSString)
| error_line (message : string) (e : Error).

Record App := mkApp
  { user_table : list user.row;
    user_id_seq : Z;
    display_table : list display.row;
    display_id_seq : Z;
    app_console : list Line;
    statements : nat }.       (* statements sent to the store so far *)

Definition set_users (t : list user.row) (s : Z) (app : App) : App :=
  mkApp t s (display_table app) (display_id_seq app) (app_console app)
        (statements app).

Definition set_displays (t : list display.row) (s : Z) (app : App) : App :=
  mkApp (user_table app) (user_id_seq app) t s (app_console app)
        (statements app).

Definition count_statement (app : App) : App :=
  mkApp (user_table app) (user_id_seq app) (display_table app)
        (display_id_seq app) (app_console app) (S (statements app)).

Definition add_line (l : Line) (app : App) : App :=
  mkApp (user_table app) (user_id_seq app) (display_table app)
        (display_id_seq app) (app_console app ++ [l]) (statements app).

(** ** Requests *)

Module ReqBody.
Record t := mk
  { username : option JSString; email : option JSString;
    password : option JSString; display_id : option JSString;
    type : option JSString; isActive : option bool;
    ipAddress : option JSString; data : option Json }.
End ReqBody.

Module Request.
Record t := mk
  { authorization : option JSString;   (* req.headers.authorization *)
    body : ReqBody.t;                  (* req.body *)
    displayId : JSString;              (* req.params.displayId *)
    file : option JSString }.          (* req.file.filename *)
End Request.

Record Libs := mkLibs
  { (* jwt.sign({ userId }, secret, { expiresIn }) at a given time *)
    jwt_sign : Z -> option JSString -> Z -> Z -> Outcome JSString;
    (* jwt.verify(token, secret) at a given time: decoded.userId *)
    jwt_verify : option JSString -> option JSString -> Z -> option Z;
    (* bcrypt.hash(data, rounds) with the salt drawn *)
    bcrypt_hash : JSString -> nat -> Z -> JSString;
    (* bcrypt.compare(data, encrypted) *)
    bcrypt_compare : JSString -> JSString -> bool }.

Record Ctx := mkCtx
  { request : Request.t;
    libs : Libs;
    JWT_SECRET : option JSString;           (* process.env.JWT_SECRET *)
    store_failure : nat -> option Error;    (* failing statements *)
    Date_now : Z;                           (* seconds *)
    salt : Z }.

Inductive Payload :=
| SendText (text : string)                          (* res.send(text) *)
| JsonErr (error : string)                          (* res.json({ error }) *)
| JsonTokens (token refreshToken : JSString)
| JsonToken (token : JSString)
| JsonProfile (id : Z) (username email profileImage : JSString)
| JsonDisplay (d : display.row)
| JsonDisplays (ds : list display.row).

Record Reply := mkReply { code : Z; payload : Payload }.

Definition Route (A : Type) : Type := Ctx -> App -> Outcome A * App.

Definition answer {A} (a : A) : Route A := fun _ app => (Resolved a, app).
Definition raise {A} (e : Error) : Route A := fun _ app => (Rejected e, app).
Definition and_then {A B} (m : Route A) (k : A -> Route B) : Route B :=
  fun ctx app =>
    match m ctx app with
    | (Resolved a, app') => k a ctx app'
    | (Rejected e, app') => (Rejected e, app')
    end.
Definition try_route {A} (body : Route A) (handler : Error -> Route A)
  : Route A :=
  fun ctx app =>
    match body ctx app with
    | (Resolved a, app') => (Resolved a, app')
    | (Rejected e, app') => handler e ctx app'
    end.

Notation "x <~ m ;; k" := (and_then m (fun x => k))
  (at level 61, m at next level, right associativity).
Notation "m ~;; k" := (and_then m (fun _ => k))
  (at level 61, right associativity).

Definition settled {A} (o : Outcome A) : Route A := fun _ app => (o, app).

Definition error_log (message : string) (e : Error) : Route unit :=
  fun _ app => (Resolved tt, add_line (error_line message e) app).

(** [!x] on a request field. *)
Definition falsy (x : option JSString) : bool :=
  match x with
  | None => true
  | Some [] => true
  | Some (_ :: _) => false
  end.

Definition given (x : option JSString) : JSString :=
  match x with
  | Some s => s
  | None => []
  end.

(** [s.split(sep)] for a separator of one code unit. *)
Fixpoint split_on (sep : N) (s : JSString) : list JSString :=
  match s with
  | [] => [[]]
  | c :: s' =>
      if N.eqb c sep then [] :: split_on sep s'
      else match split_on sep s' with
           | piece :: pieces => (c :: piece) :: pieces
           | [] => [[c]]
           end
  end.

Definition SPACE : N := 32%N.

(** ** Statements on the store

    A statement is numbered; the store fails it when the request's
    [store_failure] says so, and otherwise runs it. *)
Definition statement {A} (run : App -> Outcome A * App) : Route A :=
  fun ctx app =>
    match store_failure ctx (statements app) with
    | Some e => (Rejected e, count_statement app)
    | None => run (count_statement app)
    end.

(** [db.prisma.user.findUnique({ where: { username } })] *)
Definition user_findUnique_username (username : JSString)
  : Route (option user.row) :=
  statement (fun app =>
    (Resolved (List.find (fun r => jseqb (user.username r) username)
                         (user_table app)), app)).

(** [db.prisma.user.findFirst({ where: { OR: [{ username }, { email }] } })] *)
Definition user_findFirst_username_or_email (username email : JSString)
  : Route (option user.row) :=
  statement (fun app =>
    (Resolved (List.find (fun r => jseqb (user.username r) username
                                   || jseqb (user.email r) email)
                         (user_table app)), app)).

(** [db.prisma.user.findUnique({ where: { id } })] *)
Definition user_findUnique_id (id : Z) : Route (option user.row) :=
  statement (fun app =>
    (Resolved (List.find (fun r => Z.eqb (user.id r) id) (user_table app)),
     app)).

(** The unique indexes of ["user"]: [user_pkey], [user_username_key],
    [user_email_key]. *)
Definition user_collides (r : user.row) (table : list user.row) : bool :=
  existsb (fun old => Z.eqb (user.id old) (user.id r)
                      || jseqb (user.username old) (user.username r)
                      || jseqb (user.email old) (user.email r)) table.

(** [db.prisma.user.create({ data: { username, email, password } })] *)
Definition user_create (username email password : JSString)
  : Route user.row :=
  statement (fun app =>
    let r := user.mk (user_id_seq app) username email password None in
    if user_collides r (user_table app)
    then (Rejected "Unique constraint failed"%string,
          set_users (user_table app) (user_id_seq app + 1) app)
    else (Resolved r,
          set_users (user_table app ++ [r]) (user_id_seq app + 1) app)).

(** [db.prisma.user.update({ where: { id }, data })], for a [data] that
    leaves [id], [username] and [email] alone. *)
Definition user_update (id : Z) (change : user.row -> user.row)
  : Route user.row :=
  statement (fun app =>
    match List.find (fun r => Z.eqb (user.id r) id) (user_table app) with
    | None => (Rejected "Record to update not found"%string, app)
    | Some old =>
        (Resolved (change old),
         set_users (map (fun r => if Z.eqb (user.id r) id then change r
                                  else r) (user_table app))
                   (user_id_seq app) app)
    end).

Definition set_password (password : JSString) (r : user.row) : user.row :=
  user.mk (user.id r) (user.username r) (user.email r) password
          (user.profileImage r).

Definition set_profileImage (filename : JSString) (r : user.row) : user.row :=
  user.mk (user.id r) (user.username r) (user.email r) (user.password r)
          (Some filename).

(** [db.prisma.display.findFirst({ where: { display_id, userId } })]; an
    undefined [display_id] does not filter. *)
Definition display_findFirst (display_id : option JSString) (userId : Z)
  : Route (option display.row) :=
  statement (fun app =>
    (Resolved
       (List.find (fun d =>
                     match display_id with
                     | Some i => jseqb (display.display_id d) i
                     | None => true
                     end && Z.eqb (display.userId d) userId)
                  (display_table app)), app)).

(** [db.prisma.display.findUnique({ where: { display_id } })] *)
Definition display_findUnique (display_id : JSString)
  : Route (option display.row) :=
  statement (fun app =>
    (Resolved (List.find (fun d => jseqb (display.display_id d) display_id)
                         (display_table app)), app)).

(** [db.prisma.display.findMany({ where: { userId } })] *)
Definition display_findMany (userId : Z) : Route (list display.row) :=
  statement (fun app =>
    (Resolved (filter (fun d => Z.eqb (display.userId d) userId)
                      (display_table app)), app)).

(** [db.prisma.display.delete({ where: { id } })] *)
Definition display_delete (id : Z) : Route display.row :=
  statement (fun app =>
    match List.find (fun d => Z.eqb (display.id d) id) (display_table app) with
    | None => (Rejected "Record to delete does not exist"%string, app)
    | Some old =>
        (Resolved old,
         set_displays (filter (fun d => negb (Z.eqb (display.id d) id))
                              (display_table app))
                      (display_id_seq app) app)
    end).

(** The [data] of [display.update] and [display.create]: an undefined
    field is left as it is (update) or to its default (create). *)
Module DisplayData.
Record t := mk
  { display_id : option JSString; type : option JSString;
    data : option Json; isActive : option bool;
    ipAddress : option JSString; location : option JSString }.
End DisplayData.

Definition or_else {A} (x : option A) (d : A) : A :=
  match x with
  | Some a => a
  | None => d
  end.

Definition apply_data (d : DisplayData.t) (old : display.row) : display.row :=
  display.mk (display.id old)
             (or_else (DisplayData.display_id d) (display.display_id old))
             (or_else (DisplayData.type d) (display.type old))
             (or_else (DisplayData.ipAddress d) (display.ipAddress old))
             (match DisplayData.data d with
              | Some j => Some j
              | None => display.data old
              end)
             (display.userId old)
             (or_else (DisplayData.isActive d) (display.isActive old))
             (or_else (DisplayData.location d) (display.location old))
             (display.createdAt old).

(** Characters of a string, a surrogate pair counting for one
    ([VARCHAR(45)] counts characters). *)
Fixpoint characters (s : JSString) : nat :=
  match s with
  | [] => 0
  | c :: s' =>
      match s' with
      | c' :: s'' =>
          if (N.leb 55296 c && N.leb c 56319
              && N.leb 56320 c' && N.leb c' 57343)%N
          then S (characters s'')
          else S (characters s')
      | [] => 1
      end
  end.

(** What the table refuses of a row that replaces or joins the others:
    [display_pkey], [display_display_id_key], ["ipAddress" VARCHAR(45)]. *)
Definition display_refused (r : display.row) (others : list display.row)
  : bool :=
  existsb (fun old => Z.eqb (display.id old) (display.id r)
                      || jseqb (display.display_id old) (display.display_id r))
          others
  || Nat.ltb 45 (characters (display.ipAddress r)).

(** [db.prisma.display.update({ where: { id }, data })] *)
Definition display_update (id : Z) (d : DisplayData.t) : Route display.row :=
  statement (fun app =>
    match List.find (fun r => Z.eqb (display.id r) id) (display_table app) with
    | None => (Rejected "Record to update not found"%string, app)
    | Some old =>
        let new := apply_data d old in
        if display_refused new
             (filter (fun r => negb (Z.eqb (display.id r) id))
                     (display_table app))
        then (Rejected "Constraint failed"%string, app)
        else
          (Resolved new,
           set_displays (map (fun r => if Z.eqb (display.id r) id
                                       then apply_data d r else r)
                             (display_table app))
                        (display_id_seq app) app)
    end).

(** [db.prisma.display.create({ data: { ..., user: { connect: { id } } } })]:
    the client refuses a [data] that lacks a column without default
    ([display_id], [type], [ipAddress], [location]) before any statement is
    sent; otherwise the row is inserted if the user exists and the table
    accepts it. *)
Definition display_create (d : DisplayData.t) (userId : Z)
  : Route display.row :=
  match DisplayData.display_id d, DisplayData.type d,
        DisplayData.ipAddress d, DisplayData.location d with
  | Some display_id, Some type, Some ipAddress, Some location =>
      fun ctx =>
        statement (fun app =>
          let r := display.mk (display_id_seq app) display_id type ipAddress
                              (DisplayData.data d) userId
                              (or_else (DisplayData.isActive d) false)
                              location (Date_now ctx) in
          if negb (existsb (fun u => Z.eqb (user.id u) userId)
                           (user_table app))
             || display_refused r (display_table app)
          then (Rejected "Constraint failed"%string,
                set_displays (display_table app) (display_id_seq app + 1) app)
          else (Resolved r,
                set_displays (display_table app ++ [r])
                             (display_id_seq app + 1) app)) ctx
  | _, _, _, _ => raise "Argument missing"%string
  end.

(** ** The libraries, as calls of a route *)

Definition THIRTY_DAYS : Z := 30 * 24 * 60 * 60.

(** [jwt.sign({ userId }, process.env.JWT_SECRET, { expiresIn: "30d" })] *)
Definition sign_token (userId : Z) : Route JSString :=
  fun ctx app =>
    (jwt_sign (libs ctx) userId (JWT_SECRET ctx) THIRTY_DAYS (Date_now ctx),
     app).

(** [bcrypt.hash(password, 10)] *)
Definition hash_password (password : JSString) : Route JSString :=
  fun ctx app => (Resolved (bcrypt_hash (libs ctx) password 10 (salt ctx)), app).

(** [bcrypt.compare(password, encrypted)] *)
Definition compare_password (password encrypted : JSString) : Route bool :=
  fun ctx app => (Resolved (bcrypt_compare (libs ctx) password encrypted), app).

(* ================================================================== *)
(** * The middleware and the routes on users and displays *)

(** [authenticateToken]: 401 without header, 403 when
    [authHeader.split(" ")[1]] does not verify, else [req.userId] is set
    and [next()] runs. *)
Definition authenticateToken (next : Z -> Route Reply) : Route Reply :=
  fun ctx app =>
    let authHeader := Request.authorization (request ctx) in
    if falsy authHeader
    then (Resolved (mkReply 401 (JsonErr "Authorization header missing")), app)
    else
      let token := nth_error (split_on SPACE (given authHeader)) 1 in
      match jwt_verify (libs ctx) token (JWT_SECRET ctx) (Date_now ctx) with
      | None => (Resolved (mkReply 403 (JsonErr "Invalid token")), app)
      | Some userId => next userId ctx app
      end.

Definition req_body : Route ReqBody.t :=
  fun ctx app => (Resolved (Request.body (request ctx)), app).

(** [app.post("/login", ...)] *)
Definition post_login : Route Reply :=
  try_route
    (b <~ req_body ;;
     if falsy (ReqBody.username b) || falsy (ReqBody.password b)
     then answer (mkReply 400 (JsonErr "Username and password are required"))
     else
       user <~ user_findUnique_username (given (ReqBody.username b)) ;;
       match user with
       | None =>
           answer (mkReply 401 (JsonErr "Invalid username or password"))
       | Some user =>
           passwordMatch <~ compare_password (given (ReqBody.password b))
                                             (user.password user) ;;
           if negb passwordMatch
           then answer (mkReply 401 (JsonErr "Invalid username or password"))
           else
             token <~ sign_token (user.id user) ;;
             refreshToken <~ sign_token (user.id user) ;;
             answer (mkReply 200 (JsonTokens token refreshToken))
       end)
    (fun error =>
       error_log "Error during login:" error ~;;
       answer (mkReply 500 (JsonErr "An error occurred during login"))).

(** [app.post("/signup", ...)] *)
Definition post_signup : Route Reply :=
  try_route
    (b <~ req_body ;;
     if falsy (ReqBody.username b) || falsy (ReqBody.email b)
        || falsy (ReqBody.password b)
     then answer (mkReply 400
                    (JsonErr "Username, email, and password are required"))
     else
       existingUser <~ user_findFirst_username_or_email
                         (given (ReqBody.username b))
                         (given (ReqBody.email b)) ;;
       match existingUser with
       | Some _ =>
           answer (mkReply 409 (JsonErr "Username or email already exists"))
       | None =>
           hashedPassword <~ hash_password (given (ReqBody.password b)) ;;
           user <~ user_create (given (ReqBody.username b))
                               (given (ReqBody.email b)) hashedPassword ;;
           token <~ sign_token (user.id user) ;;
           answer (mkReply 200 (JsonToken token))
       end)
    (fun error =>
       error_log "Error during sign up:" error ~;;
       answer (mkReply 500 (JsonErr "An error occurred during sign up"))).

(** The image address of [GET /profile]: a user without image has [null]
    interpolated. *)
Definition profile_image_url (profileImage : option JSString) : JSString :=
  js "http://localhost:8000/images/" ++ or_else profileImage (js "null").

(** [app.get("/profile", authenticateToken, ...)] *)
Definition get_profile : Route Reply :=
  authenticateToken (fun userId =>
    try_route
      (user <~ user_findUnique_id userId ;;
       match user with
       | None => answer (mkReply 404 (JsonErr "User not found"))
       | Some user =>
           answer (mkReply 200
                     (JsonProfile (user.id user) (user.username user)
                                  (user.email user)
                                  (profile_image_url (user.profileImage user))))
       end)
      (fun error =>
         error_log "Error fetching user profile:" error ~;;
         answer (mkReply 500
                   (JsonErr "An error occurred while fetching user profile")))).

Definition req_file : Route (option JSString) :=
  fun ctx app => (Resolved (Request.file (request ctx)), app).

Definition req_displayId : Route JSString :=
  fun ctx app => (Resolved (Request.displayId (request ctx)), app).

(** [image.filename], which throws when no file came with the request. *)
Definition filename_of (image : option JSString) : Route JSString :=
  match image with
  | Some filename => answer filename
  | None => raise "TypeError: Cannot read properties of undefined"%string
  end.

(** [app.post("/profile/image", authenticateToken, upload.single("image"),
    ...)], the first of the two registrations; [req.file] is what multer
    left. *)
Definition post_profile_image : Route Reply :=
  authenticateToken (fun userId =>
    try_route
      (image <~ req_file ;;
       filename <~ filename_of image ;;
       user_update userId (set_profileImage filename) ~;;
       answer (mkReply 200 (SendText "Image profile updated")))
      (fun error =>
         error_log "Error updating image profile:" error ~;;
         answer (mkReply 500 (JsonErr "Error updating image profile")))).

(** The second registration of the same method and path. *)
Definition post_profile_image_again : Route Reply :=
  authenticateToken (fun userId =>
    try_route
      (image <~ req_file ;;
       filename <~ filename_of image ;;
       user_update userId (set_profileImage filename) ~;;
       answer (mkReply 200 (SendText "Profile image updated")))
      (fun error =>
         error_log "Error updating profile image:" error ~;;
         answer (mkReply 500 (JsonErr "Error updating profile image")))).

(** [app.put("/profile/password", authenticateToken, ...)] *)
Definition put_profile_password : Route Reply :=
  authenticateToken (fun userId =>
    try_route
      (b <~ req_body ;;
       if falsy (ReqBody.password b)
       then answer (mkReply 400 (JsonErr "New password is required"))
       else
         hashedPassword <~ hash_password (given (ReqBody.password b)) ;;
         user_update userId (set_password hashedPassword) ~;;
         answer (mkReply 200 (SendText "Password updated successfully")))
      (fun error =>
         error_log "Error updating password:" error ~;;
         answer (mkReply 500 (JsonErr "Error updating password")))).

(** [app.delete("/delete-display/:displayId", authenticateToken, ...)] *)
Definition delete_display : Route Reply :=
  authenticateToken (fun userId =>
    try_route
      (displayId <~ req_displayId ;;
       display <~ display_findFirst (Some displayId) userId ;;
       match display with
       | None => answer (mkReply 404 (JsonErr "Display not found"))
       | Some display =>
           display_delete (display.id display) ~;;
           answer (mkReply 200 (SendText "Display deleted"))
       end)
      (fun error =>
         error_log "Error deleting display:" error ~;;
         answer (mkReply 500 (SendText "Error deleting display")))).

(** The [data] of the update: [{ display_id, type, data, isActive,
    ipAddress }] of the body. *)
Definition update_data (b : ReqBody.t) : DisplayData.t :=
  DisplayData.mk (ReqBody.display_id b) (ReqBody.type b) (ReqBody.data b)
                 (ReqBody.isActive b) (ReqBody.ipAddress b) None.

(** [app.put("/update-display/:displayId", authenticateToken, ...)] *)
Definition put_update_display : Route Reply :=
  authenticateToken (fun userId =>
    try_route
      (displayId <~ req_displayId ;;
       b <~ req_body ;;
       display <~ display_findFirst (Some displayId) userId ;;
       match display with
       | None => answer (mkReply 404 (JsonErr "Display not found"))
       | Some display =>
           updatedDisplay <~ display_update (display.id display)
                                            (update_data b) ;;
           answer (mkReply 200 (JsonDisplay updatedDisplay))
       end)
      (fun error =>
         error_log "Error updating display:" error ~;;
         answer (mkReply 500 (SendText "Error updating display")))).

(** The [data] of the creation: [{ display_id, type, data, ipAddress,
    isActive }] of the body; no [location]. *)
Definition create_data (b : ReqBody.t) : DisplayData.t :=
  DisplayData.mk (ReqBody.display_id b) (ReqBody.type b) (ReqBody.data b)
                 (ReqBody.isActive b) (ReqBody.ipAddress b) None.

(** [app.post("/create-display", authenticateToken, ...)] *)
Definition post_create_display : Route Reply :=
  authenticateToken (fun userId =>
    try_route
      (b <~ req_body ;;
       existingDisplay <~ display_findFirst (ReqBody.display_id b) userId ;;
       match existingDisplay with
       | Some _ => answer (mkReply 409 (JsonErr "Display ID already exists"))
       | None =>
           newDisplay <~ display_create (create_data b) userId ;;
           answer (mkReply 201 (JsonDisplay newDisplay))
       end)
      (fun error =>
         error_log "Error creating display:" error ~;;
         answer (mkReply 500 (JsonErr "Error creating display")))).

(** [app.get("/display/:displayId", authenticateToken, ...)] *)
Definition get_display : Route Reply :=
  authenticateToken (fun _ =>
    displayId <~ req_displayId ;;
    try_route
      (display <~ display_findUnique displayId ;;
       match display with
       | None => answer (mkReply 404 (JsonErr "Display not found"))
       | Some display => answer (mkReply 200 (JsonDisplay display))
       end)
      (fun error =>
         error_log "Error retrieving display:" error ~;;
         answer (mkReply 500 (JsonErr "Internal server error")))).

(** [app.get("/displays", authenticateToken, ...)] *)
Definition get_displays : Route Reply :=
  authenticateToken (fun userId =>
    try_route
      (displays <~ display_findMany userId ;;
       answer (mkReply 200 (JsonDisplays displays)))
      (fun error =>
         error_log "Error fetching displays:" error ~;;
         answer (mkReply 500 (JsonErr "Error fetching displays")))).

(** ** The order of registration

    Express tries the registered routes in order and runs the first whose
    method and path match; every handler here ends the response.  How a
    path pattern matches a request is left to the router ([matching]). *)

Inductive Endpoint :=
| Login | Signup | Profile | ProfileImage | Update | Prices
| DeleteDisplay | UpdateDisplay | CreateDisplay | GetDisplay | Displays
| ProfilePassword | ProfileImageAgain.

Definition registered : list (string * string * Endpoint) :=
  [ ("POST", "/login", Login);
    ("POST", "/signup", Signup);
    ("GET", "/profile", Profile);
    ("POST", "/profile/image", ProfileImage);
    ("GET", "/update", Update);
    ("GET", "/prices", Prices);
    ("DELETE", "/delete-display/:displayId", DeleteDisplay);
    ("PUT", "/update-display/:displayId", UpdateDisplay);
    ("POST", "/create-display", CreateDisplay);
    ("GET", "/display/:displayId", GetDisplay);
    ("GET", "/displays", Displays);
    ("PUT", "/profile/password", ProfilePassword);
    ("POST", "/profile/image", ProfileImageAgain) ]%string.

Definition dispatch {R} (matching : string -> string -> R -> bool)
           (r : R) : option Endpoint :=
  option_map snd
    (List.find (fun route => matching (fst (fst route)) (snd (fst route)) r)
               registered).

(* ================================================================== *)
(** * Start and stop: [startServer], [db.connect], [db.end] *)

Record Server := mkServer
  { scheduled : list (string * string);  (* cron.schedule(expr, timezone) *)
    listening : option JSString;     (* the port of app.listen *)
    on_SIGINT : bool;                (* process.on("SIGINT", ...) *)
    server_console : list Line;
    exit_code : option Z }.          (* process.exit(code) *)

Record Boot := mkBoot
  { PORT : option JSString;          (* process.env.PORT *)
    connect_outcome : Outcome unit;  (* prisma.$connect() *)
    disconnect_outcome : Outcome unit }.

Definition Startup (A : Type) : Type := Boot -> Server -> Outcome A * Server.

Definition and_next {A B} (m : Startup A) (k : A -> Startup B) : Startup B :=
  fun boot s =>
    match m boot s with
    | (Resolved a, s') => k a boot s'
    | (Rejected e, s') => (Rejected e, s')
    end.

Definition try_startup {A} (body : Startup A) (handler : Error -> Startup A)
  : Startup A :=
  fun boot s =>
    match body boot s with
    | (Resolved a, s') => (Resolved a, s')
    | (Rejected e, s') => handler e boot s'
    end.

Definition print (l : Line) : Startup unit :=
  fun _ s =>
    (Resolved tt,
     mkServer (scheduled s) (listening s) (on_SIGINT s)
              (server_console s ++ [l]) (exit_code s)).


(** [end] of the store module. *)
Definition db_end : Startup unit :=
  try_startup
    (and_next (fun boot s => (disconnect_outcome boot, s))
              (fun _ => print (log_line "PostgreSQL connection closed")))
    (fun err => print (error_line "Error closing PostgreSQL connection" err)).






(** The [SIGINT] handler: [await db.end()], a line on the console,
    [process.exit(0)]. *)
Definition SIGINT_handler : Startup unit :=
  and_next db_end (fun _ =>
  and_next (print (log_line "PostgreSQL client connection closed")) (fun _ =>
  fun _ s =>
    (Resolved tt,
     mkServer (scheduled s) (listening s) (on_SIGINT s) (server_console s)
              (Some 0)))).

(** The routes behind [authenticateToken]. *)
Definition protected_routes : list (Route Reply) :=
  [get_profile; post_profile_image; put_profile_password; delete_display;
   put_update_display; post_create_display; get_display; get_displays].

(** The routes that only read. *)
Definition reading_routes : list (Route Reply) :=
  [post_login; get_profile; get_display; get_displays].

(** [authHeader.split(" ")[1]] *)
Definition presented_token (ctx : Ctx) : option JSString :=
  nth_error (split_on SPACE (given (Request.authorization (request ctx)))) 1.

(** The user a request is authenticated as, if any. *)
Definition authenticated (ctx : Ctx) : option Z :=
  if falsy (Request.authorization (request ctx)) then None
  else jwt_verify (libs ctx) (presented_token ctx) (JWT_SECRET ctx)
                  (Date_now ctx).

(** ** What the schema asks of the tables *)

Definition users_consistent (app : App) : Prop :=
  NoDup (map user.id (user_table app)) /\
  NoDup (map user.username (user_table app)) /\
  NoDup (map user.email (user_table app)) /\
  forall r, In r (user_table app) -> user.id r < user_id_seq app.

Definition displays_consistent (app : App) : Prop :=
  NoDup (map display.id (display_table app)) /\
  NoDup (map display.display_id (display_table app)) /\
  forall d, In d (display_table app) -> display.id d < display_id_seq app.

Definition store_answers (ctx : Ctx) : Prop :=
  forall k, store_failure ctx k = None.

(** ** Sample libraries, accounts and requests *)

(** Stand-ins for [jsonwebtoken] and [bcrypt]: a token lists the user, the
    expiry and the secret; a hash lists the salt, the rounds and the
    password. *)
Definition sample_libs : Libs :=
  mkLibs
    (fun userId secret expiresIn now =>
       match secret with
       | Some s => Resolved (Z.to_N userId :: Z.to_N (now + expiresIn) :: s)
       | None => Rejected "secretOrPrivateKey must have a value"%string
       end)
    (fun token secret now =>
       match token, secret with
       | Some (u :: e :: s'), Some s =>
           if jseqb s' s && Z.ltb now (Z.of_N e) then Some (Z.of_N u)
           else None
       | _, _ => None
       end)
    (fun password rounds salt => Z.to_N salt :: N.of_nat rounds :: password)
    (fun password encrypted =>
       match encrypted with
       | _ :: _ :: p => jseqb password p
       | _ => false
       end).

Definition alice : user.row :=
  user.mk 1 (js "alice") (js "alice@example.org")
          (bcrypt_hash sample_libs (js "wonderland") 10 7) None.

Definition bob : user.row :=
  user.mk 2 (js "bob") (js "bob@example.org")
          (bcrypt_hash sample_libs (js "builder") 10 9) (Some (js "bob.png")).

Definition kitchen : display.row :=
  display.mk 1 (js "esp-kitchen") (js "epaper") (js "10.0.0.5") None 1 true
             (js "kitchen") 100.

Definition hall : display.row :=
  display.mk 2 (js "esp-hall") (js "lcd") (js "10.0.0.6") None 2 false
             (js "hall") 200.

Definition sample_app : App := mkApp [alice; bob] 3 [kitchen; hall] 3 [] 0.

Definition empty_body : ReqBody.t :=
  ReqBody.mk None None None None None None None None.

Definition credentials (username email password : option JSString)
  : ReqBody.t :=
  ReqBody.mk username email password None None None None None.

Definition sample_ctx (authorization : option JSString) (b : ReqBody.t)
           (displayId : JSString) (file : option JSString) : Ctx :=
  mkCtx (Request.mk authorization b displayId file) sample_libs
        (Some (js "secret")) (fun _ => None) 1000 5.

(** The token [jwt.sign] gives user [userId] at time 1000, and the header
    that carries it. *)
Definition token_of (userId : Z) : JSString :=
  Z.to_N userId :: Z.to_N (1000 + THIRTY_DAYS) :: js "secret".

Definition bearer (userId : Z) : option JSString :=
  Some (js "Bearer " ++ token_of userId).

(* ================================================================== *)
(** * Properties of the extraction loop *)

Lemma each_callback_fold doc ws : forall acc k,
  fold_left (each_callback doc) ws (acc, k)
  = (acc ++ records_from doc k ws, k + Z.of_nat (List.length ws)).
Proof.
  induction ws as [|w ws IH]; intros acc k; simpl.
  - now rewrite app_nil_r, Z.add_0_r.
  - rewrite IH, <- app_assoc. simpl. f_equal. lia.
Qed.

Lemma prices_records doc :
  prices doc = records_from doc 1 (select doc fact_wrapper).
Proof.
  unfold prices. now rewrite each_callback_fold.
Qed.

Lemma records_from_length doc ws : forall k,
  List.length (records_from doc k ws) = List.length ws.
Proof.
  induction ws as [|w ws IH]; intros k; simpl; [reflexivity|].
  now rewrite IH.
Qed.

Lemma records_from_orderID doc ws : forall k,
  map Scraped.orderID (records_from doc k ws)
  = map (fun i => k + Z.of_nat i) (seq 0 (List.length ws)).
Proof.
  induction ws as [|w ws IH]; intros k; simpl; [reflexivity|].
  rewrite IH, <- seq_shift, map_map. f_equal; [lia|].
  apply map_ext. intros i. lia.
Qed.

Lemma records_from_nth doc ws : forall k i w,
  nth_error ws i = Some w ->
  nth_error (records_from doc k ws) i
  = Some (Scraped.mk (k + Z.of_nat i) (parseFloat (figure_text doc w))
                     (description_text doc w) (quote_text doc)).
Proof.
  induction ws as [|w0 ws IH]; intros k i w H.
  - destruct i; discriminate.
  - destruct i as [|i]; simpl in *.
    + inversion H; subst. now rewrite Z.add_0_r.
    + rewrite (IH _ _ _ H). do 2 f_equal. lia.
Qed.

Lemma records_from_quote doc ws : forall k r,
  In r (records_from doc k ws) -> Scraped.quote r = quote_text doc.
Proof.
  induction ws as [|w ws IH]; intros k r H; simpl in H; [contradiction|].
  destruct H as [<-|H]; [reflexivity|eauto].
Qed.

(* ================================================================== *)
(** * Properties of the document tree *)

Lemma preorder_Element p name classes cs :
  preorder p (Element name classes cs)
  = (p, Element name classes cs) :: preorder_list p 0 cs.
Proof.
  simpl. f_equal. generalize 0%nat.
  induction cs as [|c cs IH]; intros i; simpl; [reflexivity|].
  now rewrite IH.
Qed.

(** ** Counting the selected elements *)

Lemma length_filter_app {A} (f : A -> bool) l1 l2 :
  List.length (filter f (l1 ++ l2))
  = (List.length (filter f l1) + List.length (filter f l2))%nat.
Proof. now rewrite filter_app, length_app. Qed.

Lemma select_count_node sel : forall n p,
  List.length (filter (fun x => matches sel (snd x)) (preorder p n))
  = count_matching sel n.
Proof.
  induction n as [name classes cs IH|d|d] using Node_ind; intros p.
  - rewrite preorder_Element.
    cbn [filter snd count_matching].
    assert (F : forall i,
      List.length (filter (fun x => matches sel (snd x)) (preorder_list p i cs))
      = list_sum (map (count_matching sel) cs)).
    { induction IH as [|c cs Hc _ IHcs]; intros i; simpl; [reflexivity|].
      now rewrite length_filter_app, Hc, IHcs. }
    destruct (matches sel (Element name classes cs)); simpl; now rewrite F.
  - reflexivity.
  - reflexivity.
Qed.

Lemma select_count_list sel cs : forall p i,
  List.length (filter (fun x => matches sel (snd x)) (preorder_list p i cs))
  = list_sum (map (count_matching sel) cs).
Proof.
  induction cs as [|c cs IH]; intros p i; simpl; [reflexivity|].
  now rewrite length_filter_app, select_count_node, IH.
Qed.

Lemma select_length doc sel :
  List.length (select doc sel) = count_in sel doc.
Proof. apply select_count_list. Qed.

(** ** Paths *)

Lemma path_eqb_eq p : forall q, path_eqb p q = true <-> p = q.
Proof.
  induction p as [|i p IH]; intros [|j q]; simpl; split; intros H;
    try reflexivity; try discriminate.
  - apply andb_true_iff in H as [Hi Hp].
    apply Nat.eqb_eq in Hi. apply IH in Hp. now subst.
  - inversion H; subst. rewrite Nat.eqb_refl. simpl. now apply IH.
Qed.

Lemma is_ancestor_spec q : forall p,
  is_ancestor q p = true <-> exists r, r <> [] /\ p = r ++ q.
Proof.
  induction p as [|i p IH]; simpl.
  - split; [discriminate|].
    intros (r & Hr & E). destruct r; [congruence|discriminate].
  - rewrite orb_true_iff, path_eqb_eq, IH. split.
    + intros [->|(r & Hr & ->)].
      * exists [i]. split; [discriminate|reflexivity].
      * exists (i :: r). split; [discriminate|reflexivity].
    + intros (r & Hr & E). destruct r as [|j r]; [congruence|].
      simpl in E. inversion E; subst.
      destruct r as [|k r]; [now left|right].
      exists (k :: r). split; [discriminate|reflexivity].
Qed.

Lemma path_index_unique (r r' : Path) j k p :
  r ++ j :: p = r' ++ k :: p -> j = k.
Proof.
  intros E.
  change (r ++ [j] ++ p = r' ++ [k] ++ p) in E.
  rewrite !app_assoc in E. apply app_inv_tail in E.
  now apply app_inj_tail in E.
Qed.

Lemma path_longer (r : Path) j p : r ++ j :: p <> p.
Proof.
  intros E. apply (f_equal (@List.length nat)) in E.
  rewrite length_app in E. simpl in E. lia.
Qed.

(** Where the nodes of a subtree sit. *)
Lemma preorder_paths : forall n p x,
  In x (preorder p n) ->
  x = (p, n) \/ exists r j, fst x = r ++ j :: p.
Proof.
  induction n as [name classes cs IH|d|d] using Node_ind; intros p x H.
  - rewrite preorder_Element in H. destruct H as [<-|H]; [now left|right].
    revert H. generalize 0%nat.
    induction IH as [|c cs Hc _ IHcs]; intros i H; simpl in H;
      [contradiction|].
    apply in_app_or in H as [H|H]; [|eauto].
    apply Hc in H as [->|(r & j & E)].
    + exists [], i. reflexivity.
    + exists (r ++ [j]), i. rewrite E, <- app_assoc. reflexivity.
  - destruct H as [<-|[]]. now left.
  - destruct H as [<-|[]]. now left.
Qed.

Lemma preorder_list_paths cs : forall p i x,
  In x (preorder_list p i cs) ->
  exists r j, fst x = r ++ j :: p /\ (i <= j)%nat.
Proof.
  induction cs as [|c cs IH]; intros p i x H; simpl in H; [contradiction|].
  apply in_app_or in H as [H|H].
  - apply preorder_paths in H as [->|(r & j & E)].
    + exists [], i. split; [reflexivity|lia].
    + exists (r ++ [j]), i. rewrite E, <- app_assoc. split; [reflexivity|lia].
  - apply IH in H as (r & j & E & Hj). exists r, j. split; [exact E|lia].
Qed.

Lemma preorder_below_child c : forall p i x,
  In x (preorder (i :: p) c) -> exists r, fst x = r ++ i :: p.
Proof.
  intros p i x H. apply preorder_paths in H as [->|(r & j & E)].
  - now exists [].
  - exists (r ++ [j]). rewrite E, <- app_assoc. reflexivity.
Qed.

(** ** [find] below a selection, against the recursion on the tree *)

Section Nesting.
Variables outer inner : Selector.
Variable ctx : Cheerio.

Let picked (x : Located) : bool :=
  matches inner (snd x) && has_ancestor_in ctx x.

(** [ctx] holds, of the subtree of [n] at [p], exactly the elements that
    match [outer]; [inside] tells whether it holds an ancestor of [n]. *)
Let tracks (n : Node) : Prop :=
  forall p inside,
    (forall c, In c ctx -> (exists r, fst c = r ++ p) ->
               In c (preorder p n) /\ matches outer (snd c) = true) ->
    (forall x, In x (preorder p n) -> matches outer (snd x) = true ->
               In x ctx) ->
    existsb (fun c => is_ancestor (fst c) p) ctx = inside ->
    map snd (filter picked (preorder p n))
    = nested_under outer inner inside n.

Lemma nested_forest cs :
  Forall tracks cs ->
  forall p i inside,
    (forall j, existsb (fun c => is_ancestor (fst c) (j :: p)) ctx = inside) ->
    (forall c, In c ctx ->
               (exists r j, fst c = r ++ j :: p /\ (i <= j)%nat) ->
               In c (preorder_list p i cs) /\ matches outer (snd c) = true) ->
    (forall x, In x (preorder_list p i cs) ->
               matches outer (snd x) = true -> In x ctx) ->
    map snd (filter picked (preorder_list p i cs))
    = flat_map (nested_under outer inner inside) cs.
Proof.
  induction 1 as [|c cs Hc _ IH]; intros p i inside H3 H1 H2;
    [reflexivity|].
  simpl. rewrite filter_app, map_app. f_equal.
  - apply Hc; [| |apply H3].
    + intros c0 Hin (r & E).
      destruct (H1 c0 Hin) as [Hmem Hm].
      { exists r, i. split; [exact E|lia]. }
      split; [|exact Hm]. simpl in Hmem.
      apply in_app_or in Hmem as [Hmem|Hmem]; [exact Hmem|].
      apply preorder_list_paths in Hmem as (r' & j & E' & Hj).
      rewrite E in E'. apply path_index_unique in E'. lia.
    + intros x Hx Hm. apply H2; [|exact Hm]. simpl.
      apply in_or_app. now left.
  - apply IH; [apply H3| |].
    + intros c0 Hin (r & j & E & Hj).
      destruct (H1 c0 Hin) as [Hmem Hm].
      { exists r, j. split; [exact E|lia]. }
      split; [|exact Hm]. simpl in Hmem.
      apply in_app_or in Hmem as [Hmem|Hmem]; [|exact Hmem].
      apply preorder_below_child in Hmem as (r' & E').
      rewrite E in E'. apply path_index_unique in E'. lia.
    + intros x Hx Hm. apply H2; [|exact Hm]. simpl.
      apply in_or_app. now right.
Qed.

Lemma nested_node : forall n, tracks n.
Proof.
  induction n as [name classes cs IH|d|d] using Node_ind;
    intros p inside H1 H2 H3.
  - set (n := Element name classes cs) in *.
    unfold n at 1. rewrite preorder_Element. fold n.
    cbn [filter].
    match goal with
    | |- context [if ?b then _ else _] =>
        assert (Hhead : b = inside && matches inner n)
    end.
    { unfold picked, has_ancestor_in. simpl fst. simpl snd.
      rewrite H3. apply andb_comm. }
    rewrite Hhead.
    assert (Htail :
      map snd (filter picked (preorder_list p 0 cs))
      = flat_map (nested_under outer inner (inside || matches outer n)) cs).
    { apply nested_forest; [exact IH| | |].
      - intros j. apply eq_iff_eq_true.
        rewrite existsb_exists, orb_true_iff. split.
        + intros (c & Hin & Hanc). simpl in Hanc.
          apply orb_true_iff in Hanc as [Heq|Hanc].
          * right. apply path_eqb_eq in Heq.
            destruct (H1 c Hin) as [Hmem Hm];
              [exists []; now rewrite Heq|].
            apply preorder_paths in Hmem as [->|(r & k & E)];
              [exact Hm|].
            rewrite Heq in E. symmetry in E.
            now apply path_longer in E.
          * left. rewrite <- H3. apply existsb_exists. eauto.
        + intros [Hi|Hm].
          * rewrite <- H3 in Hi. apply existsb_exists in Hi as (c & Hin & Hanc).
            exists c. split; [exact Hin|]. simpl. rewrite Hanc.
            apply orb_true_r.
          * exists (p, n). split.
            -- apply H2; [|exact Hm]. unfold n.
               rewrite preorder_Element. now left.
            -- simpl. assert (E : path_eqb p p = true) by now apply path_eqb_eq.
               now rewrite E.
      - intros c Hin (r & j & E & _).
        destruct (H1 c Hin) as [Hmem Hm].
        { exists (r ++ [j]). rewrite E, <- app_assoc. reflexivity. }
        split; [|exact Hm]. unfold n in Hmem.
        rewrite preorder_Element in Hmem.
        destruct Hmem as [<-|Hmem]; [|exact Hmem].
        simpl in E. symmetry in E. now apply path_longer in E.
      - intros x Hx Hm. apply H2; [|exact Hm]. unfold n.
        rewrite preorder_Element. now right. }
    unfold n at 3. cbn [nested_under]. fold n.
    destruct (inside && matches inner n); simpl; now rewrite Htail.
  - simpl. unfold picked. simpl. now rewrite andb_false_r.
  - simpl. unfold picked. simpl. now rewrite andb_false_r.
Qed.
End Nesting.

Lemma nodes_path_nonempty doc x : In x (nodes doc) -> fst x <> [].
Proof.
  intros H. apply preorder_list_paths in H as (r & j & E & _).
  rewrite E. apply not_eq_sym, app_cons_not_nil.
Qed.

(** [$(outer).find(inner)] selects the elements matching [inner] that lie
    below an element matching [outer], each once, in document order. *)
Lemma find_select_nested doc outer inner :
  map snd (find doc inner (select doc outer)) = nested_in outer inner doc.
Proof.
  unfold find, nested_in, nodes.
  apply (nested_forest outer inner (select doc outer)).
  - apply Forall_forall. intros n _. apply nested_node.
  - intros j. apply not_true_is_false. intros H.
    apply existsb_exists in H as (c & Hin & Hanc).
    simpl in Hanc. rewrite orb_false_r in Hanc. apply path_eqb_eq in Hanc.
    apply filter_In in Hin as [Hin _].
    now apply nodes_path_nonempty in Hin.
  - intros c Hin _. now apply filter_In in Hin.
  - intros x Hx Hm. apply filter_In. now split.
Qed.

(** ** [$(selector)] and [$(this).find(selector)], by recursion on the tree *)

Lemma filter_all_matching sel : forall n p,
  map snd (filter (fun x => matches sel (snd x)) (preorder p n))
  = all_matching sel n.
Proof.
  induction n as [name classes cs IH|d|d] using Node_ind; intros p.
  - rewrite preorder_Element. cbn [filter snd all_matching].
    assert (F : forall i,
      map snd (filter (fun x => matches sel (snd x)) (preorder_list p i cs))
      = flat_map (all_matching sel) cs).
    { induction IH as [|c cs Hc _ IHcs]; intros i; simpl; [reflexivity|].
      now rewrite filter_app, map_app, Hc, IHcs. }
    destruct (matches sel (Element name classes cs)); simpl; now rewrite F.
  - reflexivity.
  - reflexivity.
Qed.

Lemma filter_all_matching_list sel cs : forall p i,
  map snd (filter (fun x => matches sel (snd x)) (preorder_list p i cs))
  = flat_map (all_matching sel) cs.
Proof.
  induction cs as [|c cs IH]; intros p i; simpl; [reflexivity|].
  now rewrite filter_app, map_app, filter_all_matching, IH.
Qed.

(** The selection holds the matching elements in document order. *)
Lemma select_all_matching doc sel :
  map snd (select doc sel) = flat_map (all_matching sel) doc.
Proof. apply filter_all_matching_list. Qed.

Lemma is_ancestor_irrefl p : is_ancestor p p = false.
Proof.
  apply not_true_is_false. intros H.
  apply is_ancestor_spec in H as (r & Hr & E).
  apply (f_equal (@List.length nat)) in E. rewrite length_app in E.
  destruct r; [congruence|simpl in E; lia].
Qed.

Lemma is_ancestor_shorter q p :
  is_ancestor q p = true -> (List.length q < List.length p)%nat.
Proof.
  intros H. apply is_ancestor_spec in H as (r & Hr & ->).
  rewrite length_app. destruct r; [congruence|simpl; lia].
Qed.

Lemma map_filter_none {A B} (g : A -> B) (f : A -> bool) l :
  (forall x, In x l -> f x = false) -> map g (filter f l) = [].
Proof.
  induction l as [|x l IH]; intros H; simpl; [reflexivity|].
  rewrite (H x (or_introl eq_refl)). apply IH. intros y Hy. apply H. now right.
Qed.

Lemma filter_same {A} (f g : A -> bool) l :
  (forall x, In x l -> f x = g x) -> filter f l = filter g l.
Proof.
  induction l as [|x l IH]; intros H; simpl; [reflexivity|].
  rewrite (H x (or_introl eq_refl)), IH; [reflexivity|].
  intros y Hy. apply H. now right.
Qed.

(** Nodes under different children of one node are not below each other. *)
Lemma not_ancestor_across (r r' : Path) j j' q :
  j <> j' -> is_ancestor (r ++ j :: q) (r' ++ j' :: q) = false.
Proof.
  intros Hj. apply not_true_is_false. intros H.
  apply is_ancestor_spec in H as (s & _ & E).
  rewrite app_assoc in E. apply path_index_unique in E. congruence.
Qed.

Section Below_this.
Variable sel : Selector.

Let below (w x : Located) : bool :=
  matches sel (snd x) && has_ancestor_in [w] x.

Let located (n : Node) : Prop :=
  forall q w, In w (preorder q n) ->
    map snd (filter (below w) (preorder q n)) = matching_below sel (snd w).

Lemma below_forest cs :
  Forall located cs ->
  forall q i w, In w (preorder_list q i cs) ->
    map snd (filter (below w) (preorder_list q i cs))
    = matching_below sel (snd w).
Proof.
  induction 1 as [|c cs Hc _ IH]; intros q i w Hw; [contradiction|].
  cbn [preorder_list] in Hw |- *. rewrite filter_app, map_app.
  apply in_app_or in Hw as [Hw|Hw].
  - transitivity (matching_below sel (snd w) ++ []); [|apply app_nil_r].
    f_equal; [apply (Hc _ _ Hw)|].
    apply map_filter_none. intros x Hx.
    unfold below, has_ancestor_in. simpl.
    apply preorder_below_child in Hw as (r & ->).
    apply preorder_list_paths in Hx as (r' & j' & -> & Hj).
    rewrite not_ancestor_across by lia. now rewrite andb_false_r.
  - transitivity ([] ++ matching_below sel (snd w)); [|reflexivity].
    f_equal; [|apply (IH _ _ _ Hw)].
    apply map_filter_none. intros x Hx.
    unfold below, has_ancestor_in. simpl.
    apply preorder_below_child in Hx as (r' & ->).
    apply preorder_list_paths in Hw as (r & j & -> & Hj).
    rewrite not_ancestor_across by lia. now rewrite andb_false_r.
Qed.

Lemma below_node : forall n, located n.
Proof.
  induction n as [name classes cs IH|d|d] using Node_ind; intros q w Hw.
  - rewrite preorder_Element in *. destruct Hw as [<-|Hw].
    + cbn [filter]. unfold below at 1, has_ancestor_in. simpl fst. simpl snd.
      cbn [existsb]. rewrite is_ancestor_irrefl, andb_false_r.
      cbn [orb matching_below].
      rewrite <- (filter_all_matching_list sel cs q 0). f_equal.
      apply filter_same. intros x Hx. unfold below, has_ancestor_in. simpl.
      apply preorder_list_paths in Hx as (r & j & E & _). rewrite E.
      assert (Ha : is_ancestor q (r ++ j :: q) = true).
      { apply is_ancestor_spec. exists (r ++ [j]).
        split; [now destruct r|now rewrite <- app_assoc]. }
      rewrite Ha. simpl. apply andb_true_r.
    + cbn [filter].
      assert (Hh : below w (q, Element name classes cs) = false).
      { unfold below, has_ancestor_in. simpl.
        apply preorder_list_paths in Hw as (r & j & E & _).
        destruct (is_ancestor (fst w) q) eqn:Ha.
        - apply is_ancestor_shorter in Ha. rewrite E, length_app in Ha.
          simpl in Ha. lia.
        - now rewrite andb_false_r. }
      match goal with
      | |- context [if ?b then _ else _] => replace b with false
      end.
      now apply below_forest.
  - destruct Hw as [<-|[]]. simpl. unfold below. reflexivity.
  - destruct Hw as [<-|[]]. simpl. unfold below. reflexivity.
Qed.
End Below_this.

(** [$(this).find(selector)] selects the matching elements strictly below
    [this], in document order. *)
Lemma find_this_below doc sel this :
  In this (nodes doc) ->
  map snd (find doc sel [this]) = matching_below sel (snd this).
Proof.
  intros H. unfold find, nodes.
  apply (below_forest sel); [|exact H].
  apply Forall_forall. intros n _. apply below_node.
Qed.

Lemma text_map_snd (sel : Cheerio) :
  text sel = flat_map textContent (map snd sel).
Proof.
  unfold text. induction sel as [|x sel IH]; simpl; [reflexivity|].
  now rewrite IH.
Qed.

(** ** The loop, read on the tree *)

Lemma select_in_nodes doc sel w : In w (select doc sel) -> In w (nodes doc).
Proof. intros H. now apply filter_In in H. Qed.

Lemma figure_text_by_tree doc w :
  In w (nodes doc) -> figure_text doc w = figure_text_of (snd w).
Proof.
  intros H. unfold figure_text, figure_text_of.
  now rewrite text_map_snd, find_this_below.
Qed.

Lemma description_text_by_tree doc w :
  In w (nodes doc) -> description_text doc w = description_text_of (snd w).
Proof.
  intros H. unfold description_text, description_text_of.
  now rewrite text_map_snd, find_this_below.
Qed.

Lemma quote_text_by_tree doc : quote_text doc = quote_text_of doc.
Proof.
  unfold quote_text, quote_text_of.
  now rewrite text_map_snd, find_select_nested.
Qed.

Lemma wrappers_select doc : wrappers doc = map snd (select doc fact_wrapper).
Proof. symmetry. apply select_all_matching. Qed.

Lemma wrappers_length doc :
  List.length (wrappers doc) = count_in fact_wrapper doc.
Proof. now rewrite wrappers_select, length_map, select_length. Qed.

Lemma nth_error_map_inv {A B} (f : A -> B) l : forall i b,
  nth_error (map f l) i = Some b ->
  exists a, nth_error l i = Some a /\ f a = b.
Proof.
  induction l as [|x l IH]; intros [|i] b H; simpl in H; try discriminate.
  - inversion H. now exists x.
  - now apply IH.
Qed.

(** The object built for the i-th wrapper element of the document. *)
Lemma prices_nth_by_tree doc i wrapper :
  nth_error (wrappers doc) i = Some wrapper ->
  nth_error (prices doc) i
  = Some (Scraped.mk (Z.of_nat i + 1) (parseFloat (figure_text_of wrapper))
                     (description_text_of wrapper) (quote_text_of doc)).
Proof.
  rewrite wrappers_select. intros H.
  apply nth_error_map_inv in H as (w & E & <-).
  assert (Hin : In w (nodes doc)).
  { eapply select_in_nodes, nth_error_In, E. }
  rewrite prices_records, (records_from_nth doc _ 1 _ E).
  rewrite (figure_text_by_tree _ _ Hin), (description_text_by_tree _ _ Hin),
    quote_text_by_tree.
  do 2 f_equal. lia.
Qed.

(* ================================================================== *)
(** * Properties of [parseFloat] *)

Lemma starts_with_spec pre : forall s,
  starts_with pre s = true -> exists rest, s = pre ++ rest.
Proof.
  induction pre as [|x pre IH]; intros s H; simpl in *.
  - now exists s.
  - destruct s as [|y s]; [discriminate|].
    apply andb_true_iff in H as [Hx H]. apply N.eqb_eq in Hx. subst y.
    destruct (IH _ H) as (rest & ->). now exists rest.
Qed.

Lemma span_digits_spec s : forall ds r,
  span_digits s = (ds, r) ->
  s = ds ++ r /\ Forall (fun c => isDecimalDigit c = true) ds.
Proof.
  induction s as [|c s IH]; intros ds r H; simpl in H.
  - inversion H; subst. split; [reflexivity|constructor].
  - destruct (isDecimalDigit c) eqn:Hc.
    + destruct (span_digits s) as [ds' r'] eqn:E. inversion H; subst.
      destruct (IH _ _ eq_refl) as [-> HF]. split; [reflexivity|].
      now constructor.
    + inversion H; subst. split; [reflexivity|constructor].
Qed.

Lemma span_digits_head ds rest :
  DecimalDigits ds -> fst (span_digits (ds ++ rest)) <> [].
Proof.
  intros [Hne HF]. destruct ds as [|d ds]; [congruence|].
  inversion HF; subst. simpl.
  match goal with H : isDecimalDigit d = true |- _ => rewrite H end.
  destruct (span_digits (ds ++ rest)). simpl. discriminate.
Qed.

(** A text that opens with a StrUnsignedDecimalLiteral is read as a
    number. *)
Lemma parseUnsigned_reads neg u rest :
  StrUnsignedDecimalLiteral u -> parseUnsigned neg (u ++ rest) <> NaN.
Proof.
  intros Hu. unfold parseUnsigned.
  destruct Hu as [|ip fp ep Hip _ _|fp ep Hfp _|ip ep Hip _];
    [simpl; discriminate|..];
    (destruct (starts_with (js "Infinity") _); [discriminate|]).
  - rewrite <- app_assoc.
    pose proof (span_digits_head (DOT :: (fp ++ ep) ++ rest) Hip) as Hh.
    rewrite <- app_comm_cons, <- app_assoc.
    rewrite <- app_assoc in Hh.
    destruct (span_digits (ip ++ DOT :: fp ++ ep ++ rest)) as [ds r].
    simpl in Hh. destruct ds; [congruence|].
    destruct r as [|c r']; [discriminate|].
    destruct (N.eqb c DOT); [|discriminate].
    destruct (span_digits r'); discriminate.
  - simpl. rewrite <- app_assoc.
    pose proof (span_digits_head (ep ++ rest) Hfp) as Hh.
    destruct (span_digits (fp ++ ep ++ rest)) as [ds r].
    simpl in Hh. destruct ds; [congruence|discriminate].
  - rewrite <- app_assoc.
    pose proof (span_digits_head (ep ++ rest) Hip) as Hh.
    destruct (span_digits (ip ++ ep ++ rest)) as [ds r].
    simpl in Hh. destruct ds; [congruence|].
    destruct r as [|c r']; [discriminate|].
    destruct (N.eqb c DOT); [|discriminate].
    destruct (span_digits r'); discriminate.
Qed.

(** What [parseUnsigned] reads as a number opens with a literal. *)
Lemma parseUnsigned_literal neg s :
  parseUnsigned neg s <> NaN ->
  exists u rest, s = u ++ rest /\ StrUnsignedDecimalLiteral u.
Proof.
  unfold parseUnsigned.
  destruct (starts_with (js "Infinity") s) eqn:HI.
  - intros _. apply starts_with_spec in HI as (rest & ->).
    exists (js "Infinity"), rest. split; [reflexivity|constructor].
  - destruct (span_digits s) as [ip r] eqn:E.
    apply span_digits_spec in E as [-> Hip].
    destruct ip as [|d ip].
    + destruct r as [|c r']; [congruence|].
      destruct (N.eqb c DOT) eqn:Hc; [|congruence].
      apply N.eqb_eq in Hc. subst c.
      destruct (span_digits r') as [fp r''] eqn:E'.
      apply span_digits_spec in E' as [-> Hfp].
      destruct fp as [|f fp]; [congruence|]. intros _.
      exists (DOT :: (f :: fp) ++ []), r''. split.
      * simpl. now rewrite app_nil_r.
      * apply SU_dot; [split; [discriminate|exact Hfp]|now left].
    + intros _. exists ((d :: ip) ++ []), r. split.
      * now rewrite app_nil_r.
      * apply SU_int; [split; [discriminate|exact Hip]|now left].
Qed.

Lemma unsigned_literal_head u :
  StrUnsignedDecimalLiteral u ->
  exists c t, u = c :: t /\ N.eqb c PLUS = false /\ N.eqb c MINUS = false.
Proof.
  assert (Hd : forall ds rest, DecimalDigits ds ->
            exists c t, ds ++ rest = c :: t /\
                        N.eqb c PLUS = false /\ N.eqb c MINUS = false).
  { intros ds rest [Hne HF]. destruct ds as [|d ds]; [congruence|].
    inversion HF as [|? ? Hdig _]; subst. exists d, (ds ++ rest).
    split; [reflexivity|].
    unfold isDecimalDigit in Hdig. apply andb_true_iff in Hdig as [H1 H2].
    apply N.leb_le in H1, H2. unfold PLUS, MINUS.
    split; apply N.eqb_neq; lia. }
  intros [|ip fp ep Hip _ _|fp ep _ _|ip ep Hip _].
  - eexists _, _. split; [reflexivity|]. split; reflexivity.
  - now apply Hd.
  - eexists _, _. split; [reflexivity|]. split; reflexivity.
  - now apply Hd.
Qed.

(** [parseFloat] answers [NaN] exactly when the text does not begin with a
    number. *)
Lemma parseFloat_NaN_iff s :
  parseFloat s = NaN <-> ~ begins_with_number s.
Proof.
  unfold parseFloat, begins_with_number. split.
  - intros HN (lit & rest & E & Hlit). rewrite E in HN.
    destruct Hlit as [u Hu|u Hu|u Hu].
    + destruct (unsigned_literal_head Hu) as (c & t & -> & Hp & Hm).
      simpl in HN. rewrite Hp, Hm in HN.
      now apply (parseUnsigned_reads false rest Hu).
    + simpl in HN. now apply (parseUnsigned_reads false rest Hu).
    + simpl in HN. now apply (parseUnsigned_reads true rest Hu).
  - intros Hno. destruct (TrimStart s) as [|c t] eqn:E; [reflexivity|].
    destruct (N.eqb c PLUS) eqn:Hp; [|destruct (N.eqb c MINUS) eqn:Hm].
    + apply N.eqb_eq in Hp. subst c.
      destruct (parseUnsigned false t) eqn:R; [reflexivity| |]; exfalso;
        apply Hno;
        (destruct (@parseUnsigned_literal false t) as (u & rest & -> & Hu);
         [congruence|]);
        exists (PLUS :: u), rest; (split; [reflexivity|now apply SD_plus]).
    + apply N.eqb_eq in Hm. subst c.
      destruct (parseUnsigned true t) eqn:R; [reflexivity| |]; exfalso;
        apply Hno;
        (destruct (@parseUnsigned_literal true t) as (u & rest & -> & Hu);
         [congruence|]);
        exists (MINUS :: u), rest; (split; [reflexivity|now apply SD_minus]).
    + destruct (parseUnsigned false (c :: t)) eqn:R; [reflexivity| |]; exfalso;
        apply Hno;
        (destruct (@parseUnsigned_literal false (c :: t))
           as (u & rest & Eu & Hu); [congruence|]);
        exists u, rest; (split; [exact Eu|now apply SD_unsigned]).
Qed.

Lemma literal_chars lit :
  StrDecimalLiteral lit -> forallb literal_char lit = true.
Proof.
  assert (Hd : forall ds, DecimalDigits ds -> forallb literal_char ds = true).
  { intros ds [_ HF]. apply forallb_forall. intros c Hc.
    rewrite Forall_forall in HF. unfold literal_char. now rewrite (HF c Hc). }
  assert (Hod : forall ds, opt DecimalDigits ds ->
                           forallb literal_char ds = true).
  { intros ds [->|H]; [reflexivity|now apply Hd]. }
  assert (He : forall ep, opt ExponentPart ep ->
                          forallb literal_char ep = true).
  { intros ep [->|H]; [reflexivity|].
    destruct H as [c si Hc Hsi]. simpl.
    assert (Hc' : literal_char c = true).
    { unfold literal_char. rewrite Hc. now rewrite orb_true_r. }
    rewrite Hc'. simpl.
    destruct Hsi as [ds H|ds H|ds H]; simpl; now apply Hd. }
  assert (Hu : forall u, StrUnsignedDecimalLiteral u ->
                         forallb literal_char u = true).
  { intros u [|ip fp ep Hip Hfp Hep|fp ep Hfp Hep|ip ep Hip Hep].
    - reflexivity.
    - rewrite forallb_app. simpl. rewrite forallb_app.
      now rewrite (Hd _ Hip), (Hod _ Hfp), (He _ Hep).
    - simpl. rewrite forallb_app. now rewrite (Hd _ Hfp), (He _ Hep).
    - rewrite forallb_app. now rewrite (Hd _ Hip), (He _ Hep). }
  intros [u H|u H|u H]; simpl; now apply Hu.
Qed.

Lemma literal_nonempty lit : StrDecimalLiteral lit -> lit <> [].
Proof.
  intros [u H|u H|u H]; try discriminate.
  destruct (unsigned_literal_head H) as (c & t & -> & _). discriminate.
Qed.

(** A text whose first code unit is neither white space nor one a literal
    can hold does not begin with a number. *)
Lemma not_number_by_head c t :
  isStrWhiteSpaceChar c = false -> literal_char c = false ->
  ~ begins_with_number (c :: t).
Proof.
  intros Hw Hl (lit & rest & E & Hlit). simpl in E. rewrite Hw in E.
  pose proof (literal_nonempty Hlit) as Hne.
  pose proof (literal_chars Hlit) as Hch.
  destruct lit as [|c' lit]; [congruence|].
  simpl in E. inversion E; subst c'. simpl in Hch.
  rewrite Hl in Hch. discriminate.
Qed.

(** A text holding a code unit that is neither white space nor one a
    literal can hold is not a number. *)
Lemma not_numeric_by_char s c :
  In c s -> isStrWhiteSpaceChar c = false -> literal_char c = false ->
  ~ numeric_text s.
Proof.
  intros Hin Hw Hl (ws1 & lit & ws2 & -> & H1 & H2 & Hlit).
  pose proof (literal_chars Hlit) as Hch.
  rewrite forallb_forall in H1, H2, Hch.
  apply in_app_or in Hin as [Hin|Hin];
    [|apply in_app_or in Hin as [Hin|Hin]].
  - rewrite (H1 c Hin) in Hw. discriminate.
  - rewrite (Hch c Hin) in Hl. discriminate.
  - rewrite (H2 c Hin) in Hw. discriminate.
Qed.

(* ================================================================== *)
(** * Properties of the store *)

Lemma insert_values_skip_succeeds indexes data : forall table next_id,
  snd (insert_values indexes true table next_id data) = true.
Proof.
  induction data as [|d ds IH]; intros table next_id; simpl; [reflexivity|].
  destruct (collides indexes table (row_of next_id d)); [apply IH|].
  specialize (IH (table ++ [row_of next_id d]) (next_id + 1)).
  destruct (insert_values indexes true (table ++ [row_of next_id d])
                          (next_id + 1) ds) as [[[t s] c] ok].
  exact IH.
Qed.

(** An insertion only adds rows at the end of the table. *)
Lemma insert_values_appends indexes skip data : forall table next_id,
  exists new,
    fst (fst (fst (insert_values indexes skip table next_id data)))
    = table ++ new.
Proof.
  induction data as [|d ds IH]; intros table next_id; simpl.
  - exists []. now rewrite app_nil_r.
  - destruct (collides indexes table (row_of next_id d)).
    + destruct skip; [apply IH|]. exists []. now rewrite app_nil_r.
    + destruct (IH (table ++ [row_of next_id d]) (next_id + 1)) as (new & E).
      destruct (insert_values indexes skip (table ++ [row_of next_id d])
                              (next_id + 1) ds) as [[[t s] c] ok].
      simpl in *. exists (row_of next_id d :: new).
      now rewrite E, <- app_assoc.
Qed.

(** With the primary key as only unique index and a sequence ahead of the
    stored keys, no row collides: every row of the batch is inserted. *)
Lemma collides_pkey_fresh table r :
  (forall old, In old table -> price.id old < price.id r) ->
  collides price_unique_indexes table r = false.
Proof.
  intros H. unfold collides, price_unique_indexes. simpl.
  rewrite orb_false_r. apply not_true_is_false. intros E.
  apply existsb_exists in E as (old & Hin & Heq).
  unfold price_pkey in Heq. apply Z.eqb_eq in Heq.
  specialize (H old Hin). lia.
Qed.

Lemma insert_values_pkey skip data : forall table next_id,
  (forall old, In old table -> price.id old < next_id) ->
  insert_values price_unique_indexes skip table next_id data
  = (table ++ rows_from next_id data,
     next_id + Z.of_nat (List.length data), List.length data, true).
Proof.
  induction data as [|d ds IH]; intros table next_id H;
    cbn [insert_values rows_from List.length].
  - now rewrite app_nil_r, Z.add_0_r.
  - rewrite collides_pkey_fresh by (intros old Hin; simpl; now apply H).
    rewrite IH.
    + rewrite <- app_assoc, Nat2Z.inj_succ. cbn [app].
      replace (next_id + 1 + Z.of_nat (List.length ds))
        with (next_id + Z.succ (Z.of_nat (List.length ds))) by lia.
      reflexivity.
    + intros old Hin. apply in_app_or in Hin as [Hin|[<-|[]]].
      * specialize (H old Hin). lia.
      * simpl. lia.
Qed.

Lemma rows_from_length data : forall next_id,
  List.length (rows_from next_id data) = List.length data.
Proof.
  induction data as [|d ds IH]; intros next_id; simpl; [reflexivity|].
  now rewrite IH.
Qed.

(* ================================================================== *)
(** * Properties of a run *)

Lemma run_failure env w e :
  stage_failure env = Some e ->
  fetchDataAndSaveToDB env w = (Resolved tt, log_failure e w).
Proof.
  unfold stage_failure, fetchDataAndSaveToDB, fetchDataAndSaveToDB_try,
    try_catch, bind, axios_get, cheerio_load, new_Date_map,
    prisma_price_createMany, console_error, log_failure.
  destruct (http_response env) as [html|e0].
  - destruct (html_parser env html) as [doc|e1].
    + intros ->. reflexivity.
    + intros [= ->]. reflexivity.
  - intros [= ->]. reflexivity.
Qed.

Lemma run_success env w html doc :
  http_response env = Resolved html ->
  html_parser env html = Resolved doc ->
  db_failure env = None ->
  fetchDataAndSaveToDB env w
  = (Resolved tt, after_insert env w doc).
Proof.
  intros H1 H2 H3.
  unfold fetchDataAndSaveToDB, fetchDataAndSaveToDB_try,
    try_catch, bind, axios_get, cheerio_load, new_Date_map,
    prisma_price_createMany, console_log, after_insert.
  rewrite H1, H2, H3.
  pose proof (insert_values_skip_succeeds price_unique_indexes
                (map_with_date (clock env) 0 (prices doc))
                (price_table w) (price_id_seq w)) as Hok.
  destruct (insert_values price_unique_indexes true (price_table w)
              (price_id_seq w) (map_with_date (clock env) 0 (prices doc)))
    as [[[t s] c] ok].
  simpl in Hok. subst ok. reflexivity.
Qed.

Lemma run_cases env w :
  (exists e, stage_failure env = Some e /\
             fetchDataAndSaveToDB env w = (Resolved tt, log_failure e w)) \/
  (exists html doc,
      http_response env = Resolved html /\
      html_parser env html = Resolved doc /\
      db_failure env = None /\
      fetchDataAndSaveToDB env w = (Resolved tt, after_insert env w doc)).
Proof.
  destruct (stage_failure env) as [e|] eqn:E.
  - left. exists e. split; [reflexivity|now apply run_failure].
  - right. unfold stage_failure in E.
    destruct (http_response env) as [html|e0] eqn:H1; [|discriminate].
    destruct (html_parser env html) as [doc|e1] eqn:H2; [|discriminate].
    exists html, doc. repeat split; try assumption.
    now apply run_success with (html := html).
Qed.

(* ================================================================== *)
(** * Properties of [ORDER BY id DESC] and [take] *)

Lemma insert_desc_perm r l : Permutation (insert_desc r l) (r :: l).
Proof.
  induction l as [|x l IH]; simpl; [reflexivity|].
  destruct (Z.leb (price.id x) (price.id r)); [reflexivity|].
  rewrite IH. apply perm_swap.
Qed.

Lemma orderBy_id_desc_perm l : Permutation (orderBy_id_desc l) l.
Proof.
  induction l as [|r l IH]; simpl; [reflexivity|].
  rewrite insert_desc_perm. now constructor.
Qed.

Lemma insert_desc_sorted r l :
  StronglySorted id_ge l -> StronglySorted id_ge (insert_desc r l).
Proof.
  induction 1 as [|x l Hs IH Hx]; simpl.
  - constructor; constructor.
  - destruct (Z.leb (price.id x) (price.id r)) eqn:E.
    + apply Z.leb_le in E. constructor; [now constructor|].
      constructor; [unfold id_ge; lia|].
      eapply Forall_impl; [|exact Hx]. unfold id_ge. intros y Hy. lia.
    + apply Z.leb_gt in E. constructor; [exact IH|].
      rewrite (insert_desc_perm r l). constructor; [unfold id_ge; lia|exact Hx].
Qed.

Lemma orderBy_id_desc_sorted l : StronglySorted id_ge (orderBy_id_desc l).
Proof.
  induction l as [|r l IH]; simpl; [constructor|].
  now apply insert_desc_sorted.
Qed.

(** Distinct keys make the order strict. *)
Lemma sorted_strict l :
  NoDup (map price.id l) -> StronglySorted id_ge l -> StronglySorted id_gt l.
Proof.
  induction l as [|x l IH]; intros Hnd Hs; [constructor|].
  simpl in Hnd. inversion Hnd as [|? ? Hnotin Hnd']; subst.
  inversion Hs as [|? ? Hs' Hx]; subst.
  constructor; [now apply IH|].
  rewrite Forall_forall in *. intros y Hy. specialize (Hx y Hy).
  unfold id_ge, id_gt in *.
  assert (price.id y <> price.id x).
  { intros E. apply Hnotin. rewrite <- E. now apply in_map. }
  lia.
Qed.

Lemma sorted_app_inv {A} (R : A -> A -> Prop) l1 : forall l2,
  StronglySorted R (l1 ++ l2) ->
  StronglySorted R l1 /\ (forall a b, In a l1 -> In b l2 -> R a b).
Proof.
  induction l1 as [|x l1 IH]; intros l2 H; simpl in *.
  - split; [constructor|contradiction].
  - inversion H as [|? ? Hs Hx]; subst.
    destruct (IH _ Hs) as [Hs1 Hcross]. split.
    + constructor; [exact Hs1|].
      rewrite Forall_forall in *. intros y Hy. apply Hx.
      apply in_or_app. now left.
    + intros a b [<-|Ha] Hb; [|now apply Hcross].
      rewrite Forall_forall in Hx. apply Hx. apply in_or_app. now right.
Qed.

(** What [findMany({ take, orderBy: { id: "desc" } })] returns on a table
    with distinct keys. *)
Lemma take_desc_spec take table :
  NoDup (map price.id table) ->
  let rows := firstn take (orderBy_id_desc table) in
  List.length rows = Nat.min take (List.length table) /\
  StronglySorted id_gt rows /\
  incl rows table /\
  (forall r r', In r table -> ~ In r rows -> In r' rows ->
                price.id r < price.id r').
Proof.
  intros Hnd rows.
  pose proof (orderBy_id_desc_perm table) as Hp.
  assert (Hs : StronglySorted id_gt (orderBy_id_desc table)).
  { apply sorted_strict; [|apply orderBy_id_desc_sorted].
    eapply Permutation_NoDup; [|exact Hnd].
    apply Permutation_map. now symmetry. }
  rewrite <- (firstn_skipn take (orderBy_id_desc table)) in Hs.
  apply sorted_app_inv in Hs as [Hs1 Hcross].
  repeat split.
  - unfold rows. now rewrite length_firstn, (Permutation_length Hp).
  - exact Hs1.
  - intros r Hr. apply (Permutation_in _ Hp).
    rewrite <- (firstn_skipn take (orderBy_id_desc table)).
    apply in_or_app. now left.
  - intros r r' Hr Hnot Hr'.
    apply (Permutation_in _ (Permutation_sym Hp)) in Hr.
    rewrite <- (firstn_skipn take (orderBy_id_desc table)) in Hr.
    apply in_app_or in Hr as [Hr|Hr]; [contradiction|].
    apply (Hcross r' r Hr' Hr).
Qed.

(* ================================================================== *)
(** * Extraction: numbering, quote, empty page, non-numeric figures *)

(** C1. For a document with N wrapper elements the loop builds exactly N
    objects; their [orderID]s are 1..N; the i-th object is the one read
    from the i-th wrapper element in document order; all carry the same
    quote. *)
Theorem prices_numbered_in_document_order (doc : Dom) :
  let N := count_in fact_wrapper doc in
  List.length (wrappers doc) = N /\
  List.length (prices doc) = N /\
  map Scraped.orderID (prices doc) = map Z.of_nat (seq 1 N) /\
  (forall i wrapper,
      nth_error (wrappers doc) i = Some wrapper ->
      nth_error (prices doc) i
      = Some (Scraped.mk (Z.of_nat i + 1)
                         (parseFloat (figure_text_of wrapper))
                         (description_text_of wrapper) (quote_text_of doc))) /\
  (forall r r', In r (prices doc) -> In r' (prices doc) ->
                Scraped.quote r = Scraped.quote r').
Proof.
  intros N. split; [apply wrappers_length|].
  split; [|split; [|split]].
  - rewrite prices_records, records_from_length. apply select_length.
  - rewrite prices_records, records_from_orderID, select_length. fold N.
    rewrite <- seq_shift, map_map. apply map_ext. intros i. lia.
  - intros i wrapper. apply prices_nth_by_tree.
  - intros r r' Hr Hr'. rewrite prices_records in Hr, Hr'.
    rewrite (records_from_quote _ _ _ _ Hr).
    now rewrite (records_from_quote _ _ _ _ Hr').
Qed.

Lemma prices_numbered_fixture :
  List.length (prices fixture) = 3%nat /\
  map Scraped.orderID (prices fixture) = [1; 2; 3] /\
  nth_error (prices fixture) 2
  = Some (Scraped.mk 3 (Finite false 7 0) (js "third") (js "Test quote")).
Proof.
  destruct (prices_numbered_in_document_order fixture)
    as (_ & H1 & H2 & H3 & _).
  split; [exact H1|]. split; [exact H2|].
  exact (H3 2%nat (fact "7" "third") eq_refl).
Defined.

(** C7. A document without wrapper elements yields the empty array, and
    a run on it ends normally: nothing is inserted and the only trace is
    the count 0 on the console. *)
Theorem no_wrapper_no_record (doc : Dom) :
  count_in fact_wrapper doc = 0%nat ->
  prices doc = [] /\
  forall env w html,
    http_response env = Resolved html ->
    html_parser env html = Resolved doc ->
    db_failure env = None ->
    fetchDataAndSaveToDB env w
    = (Resolved tt,
       mkWorld (price_table w) (price_id_seq w)
               (console w ++
                [console_log_entry "Prices inserted into PostgreSQL:"
                                   (LoggedCount 0)])).
Proof.
  intros H0.
  assert (E : prices doc = []).
  { apply length_zero_iff_nil.
    rewrite prices_records, records_from_length, select_length.
    exact H0. }
  split; [exact E|].
  intros env w html H1 H2 H3.
  rewrite (run_success env w H1 H2 H3). unfold after_insert.
  now rewrite E.
Qed.

Lemma no_wrapper_no_record_sample :
  prices page_without_facts = [] /\
  fst (fetchDataAndSaveToDB (serving page_without_facts) empty_world)
  = Resolved tt.
Proof.
  destruct (@no_wrapper_no_record page_without_facts eq_refl) as [E H].
  split; [exact E|].
  now rewrite (H (serving page_without_facts) empty_world (js "<html>")
                 eq_refl eq_refl eq_refl).
Defined.

(** C6. The claim, as the spec words it, fails: the figure text 12abc is not a
    number, and the loop reads 12 from it. *)
Lemma nonnumeric_figure_gives_NaN_fails : ~ nonnumeric_figure_gives_NaN.
Proof.
  intros H.
  destruct (H page_12abc 0%nat (fact "12abc" "first") eq_refl)
    as (r & Hr & HNaN).
  - apply (@not_numeric_by_char _ 97%N); [|reflexivity|reflexivity].
    vm_compute. tauto.
  - vm_compute in Hr. inversion Hr; subst r. discriminate.
Qed.

(** C6, as amended. The object of a wrapper has [NaN] as figure exactly when
    its figure text, leading white space dropped, does not begin with a
    decimal literal; whatever the figure, the wrappers that follow get
    their objects. *)
Theorem figure_NaN_iff_no_leading_number
        (doc : Dom) (i : nat) (wrapper : Node) :
  nth_error (wrappers doc) i = Some wrapper ->
  (exists r, nth_error (prices doc) i = Some r /\
             Scraped.figure r = parseFloat (figure_text_of wrapper) /\
             (Scraped.figure r = NaN <->
              ~ begins_with_number (figure_text_of wrapper))) /\
  (forall j wrapper',
      (i < j)%nat ->
      nth_error (wrappers doc) j = Some wrapper' ->
      nth_error (prices doc) j
      = Some (Scraped.mk (Z.of_nat j + 1)
                         (parseFloat (figure_text_of wrapper'))
                         (description_text_of wrapper') (quote_text_of doc))).
Proof.
  intros Hw. split.
  - eexists. split; [apply (prices_nth_by_tree _ _ Hw)|]. simpl.
    split; [reflexivity|apply parseFloat_NaN_iff].
  - intros j wrapper' _ Hw'. apply (prices_nth_by_tree _ _ Hw').
Qed.

Lemma figure_NaN_fixture :
  exists r, nth_error (prices fixture) 1 = Some r /\ Scraped.figure r = NaN.
Proof.
  destruct (@figure_NaN_iff_no_leading_number
              fixture 1%nat (fact "abc" "second") eq_refl)
    as [(r & Hr & _ & HNaN) _].
  exists r. split; [exact Hr|]. apply HNaN.
  apply (@not_number_by_head 97%N); reflexivity.
Defined.

(** C10. The quote of every object is the text of all the [p] elements
    that lie below an element of class [key-facts-full__quote], taken in
    document order and concatenated. *)
Theorem quote_concatenates_all_paragraphs (doc : Dom) (r : Scraped.t) :
  In r (prices doc) ->
  Scraped.quote r = flat_map textContent (nested_in fact_quote p_tag doc).
Proof.
  intros Hr. rewrite prices_records in Hr.
  rewrite (records_from_quote _ _ _ _ Hr).
  apply quote_text_by_tree.
Qed.

Lemma quote_concatenates_two_blocks :
  exists r, In r (prices page_two_quotes) /\ Scraped.quote r = js "ABC".
Proof.
  exists (Scraped.mk 1 (Finite false 1 0) (js "only") (js "ABC")).
  assert (H : In (Scraped.mk 1 (Finite false 1 0) (js "only") (js "ABC"))
                 (prices page_two_quotes)) by (left; reflexivity).
  split; [exact H|].
  exact (quote_concatenates_all_paragraphs page_two_quotes _ H).
Defined.

(* ================================================================== *)
(** * The run: failures, appends, and the schedule *)

Lemma run_resolves env w : fst (fetchDataAndSaveToDB env w) = Resolved tt.
Proof.
  destruct (run_cases env w) as [(e & _ & E)|(html & doc & _ & _ & _ & E)];
    now rewrite E.
Qed.

(** C9. Whatever the request, the parser and the store do, the promise of
    [fetchDataAndSaveToDB] is resolved, never rejected; and when a stage
    fails, the run changes nothing but the console, which gets the error. *)
Theorem fetchDataAndSaveToDB_always_resolves (env : Env) (w : World) :
  fst (fetchDataAndSaveToDB env w) = Resolved tt /\
  (forall e, http_response env = Rejected e ->
             snd (fetchDataAndSaveToDB env w) = log_failure e w) /\
  (forall html e,
      http_response env = Resolved html ->
      html_parser env html = Rejected e ->
      snd (fetchDataAndSaveToDB env w) = log_failure e w) /\
  (forall html doc e,
      http_response env = Resolved html ->
      html_parser env html = Resolved doc ->
      db_failure env = Some e ->
      snd (fetchDataAndSaveToDB env w) = log_failure e w).
Proof.
  split.
  - apply run_resolves.
  - repeat split.
    + intros e H. rewrite (@run_failure env w e); [reflexivity|].
      unfold stage_failure. now rewrite H.
    + intros html e H1 H2. rewrite (@run_failure env w e); [reflexivity|].
      unfold stage_failure. now rewrite H1, H2.
    + intros html doc e H1 H2 H3.
      rewrite (@run_failure env w e); [reflexivity|].
      unfold stage_failure. now rewrite H1, H2.
Qed.

Lemma fetchDataAndSaveToDB_resolves_samples :
  fst (fetchDataAndSaveToDB timing_out empty_world) = Resolved tt /\
  snd (fetchDataAndSaveToDB timing_out empty_world)
  = log_failure "ETIMEDOUT"%string empty_world /\
  snd (fetchDataAndSaveToDB unparsable empty_world)
  = log_failure "not markup"%string empty_world /\
  snd (fetchDataAndSaveToDB (store_down fixture) empty_world)
  = log_failure "ECONNREFUSED"%string empty_world.
Proof.
  split;
    [exact (proj1 (fetchDataAndSaveToDB_always_resolves timing_out
                     empty_world))|].
  split;
    [exact (proj1 (proj2 (fetchDataAndSaveToDB_always_resolves timing_out
                            empty_world)) _ eq_refl)|].
  split;
    [exact (proj1 (proj2 (proj2 (fetchDataAndSaveToDB_always_resolves
                                   unparsable empty_world)))
              (js "{}") _ eq_refl eq_refl)|].
  exact (proj2 (proj2 (proj2 (fetchDataAndSaveToDB_always_resolves
                                (store_down fixture) empty_world)))
           (js "<html>") fixture _ eq_refl eq_refl eq_refl).
Defined.

Lemma cron_fire_runs env w :
  cron_fire env w = Running (snd (fetchDataAndSaveToDB env w)).
Proof.
  unfold cron_fire.
  pose proof (run_resolves env w) as H.
  destruct (fetchDataAndSaveToDB env w) as [[[]|e] w']; simpl in *;
    [reflexivity|discriminate].
Qed.

(** The schedule never brings the process down. *)
Lemma cron_schedule_runs days : forall w,
  exists w', cron_schedule days w = Running w'.
Proof.
  induction days as [|env rest IH]; intros w; simpl.
  - now exists w.
  - rewrite cron_fire_runs. apply IH.
Qed.

(** C4. When the request fails, the run inserts no row (table and
    sequence are as before), the console gets the error, the promise is
    resolved, and the schedule goes on with the following days from that
    state, the process still running. *)
Theorem fetch_failure_inserts_nothing
        (env : Env) (w : World) (e : Error) (rest : list Env) :
  http_response env = Rejected e ->
  fetchDataAndSaveToDB env w = (Resolved tt, log_failure e w) /\
  price_table (log_failure e w) = price_table w /\
  price_id_seq (log_failure e w) = price_id_seq w /\
  console (log_failure e w)
  = console w ++ [console_error_entry "Error fetching data and saving to DB"
                                      (LoggedError e)] /\
  cron_schedule (env :: rest) w = cron_schedule rest (log_failure e w) /\
  exists w', cron_schedule (env :: rest) w = Running w'.
Proof.
  intros H.
  assert (E : fetchDataAndSaveToDB env w = (Resolved tt, log_failure e w)).
  { apply run_failure. unfold stage_failure. now rewrite H. }
  repeat split; try reflexivity.
  - exact E.
  - simpl. rewrite cron_fire_runs, E. reflexivity.
  - apply cron_schedule_runs.
Qed.

Lemma fetch_failure_then_next_day :
  price_table (snd (fetchDataAndSaveToDB timing_out empty_world)) = [] /\
  exists w',
    cron_schedule [timing_out; serving fixture] empty_world = Running w' /\
    List.length (price_table w') = 3%nat.
Proof.
  destruct (@fetch_failure_inserts_nothing timing_out empty_world
              "ETIMEDOUT"%string [serving fixture] eq_refl)
    as (E & Ht & _ & _ & Hs & _).
  split.
  - rewrite E. exact Ht.
  - eexists. split; [rewrite Hs; reflexivity|reflexivity].
Defined.

Lemma run_appends env w :
  exists new,
    price_table (snd (fetchDataAndSaveToDB env w)) = price_table w ++ new.
Proof.
  destruct (run_cases env w) as [(e & _ & E)|(html & doc & _ & _ & _ & E)];
    rewrite E; simpl.
  - exists []. now rewrite app_nil_r.
  - unfold after_insert.
    destruct (insert_values_appends price_unique_indexes true
                (map_with_date (clock env) 0 (prices doc))
                (price_table w) (price_id_seq w)) as (new & En).
    destruct (insert_values price_unique_indexes true (price_table w)
                (price_id_seq w) (map_with_date (clock env) 0 (prices doc)))
      as [[[t s] c] ok].
    simpl in *. now exists new.
Qed.

(** C8. A run only appends to the table: the rows stored before it are
    still there, at their places and unchanged. *)
Theorem run_only_appends (env : Env) (w : World) :
  (exists new,
      price_table (snd (fetchDataAndSaveToDB env w)) = price_table w ++ new) /\
  (forall i r,
      nth_error (price_table w) i = Some r ->
      nth_error (price_table (snd (fetchDataAndSaveToDB env w))) i = Some r).
Proof.
  pose proof (run_appends env w) as H.
  split; [exact H|].
  destruct H as (new & ->). intros i r Hi.
  rewrite nth_error_app1; [exact Hi|].
  apply nth_error_Some. now rewrite Hi.
Qed.

Lemma run_only_appends_sample :
  nth_error (price_table
               (snd (fetchDataAndSaveToDB (serving fixture)
                                          world_with_ten_rows))) 0
  = nth_error (price_table world_with_ten_rows) 0.
Proof.
  apply (proj2 (run_only_appends (serving fixture) world_with_ten_rows)).
  reflexivity.
Defined.

(** The schedule as a whole only appends. *)
Lemma cron_schedule_only_appends days : forall w w',
  cron_schedule days w = Running w' ->
  exists new, price_table w' = price_table w ++ new.
Proof.
  induction days as [|env rest IH]; intros w w' H; simpl in H.
  - inversion H; subst. exists []. now rewrite app_nil_r.
  - rewrite cron_fire_runs in H.
    destruct (IH _ _ H) as (new' & E').
    destruct (run_appends env w) as (new & E).
    exists (new ++ new'). now rewrite E', E, app_assoc.
Qed.

(** ** The keys the pipeline hands out *)

Lemma rows_from_keys data : forall table next_id,
  NoDup (map price.id table) ->
  (forall r, In r table -> price.id r < next_id) ->
  NoDup (map price.id (table ++ rows_from next_id data)) /\
  (forall r, In r (table ++ rows_from next_id data) ->
             price.id r < next_id + Z.of_nat (List.length data)).
Proof.
  induction data as [|d ds IH]; intros table next_id Hnd Hlt.
  - simpl. rewrite app_nil_r, Z.add_0_r. now split.
  - cbn [rows_from List.length].
    change (row_of next_id d :: rows_from (next_id + 1) ds)
      with ([row_of next_id d] ++ rows_from (next_id + 1) ds).
    rewrite app_assoc.
    destruct (IH (table ++ [row_of next_id d]) (next_id + 1)) as [H1 H2].
    + rewrite map_app. simpl.
      eapply Permutation_NoDup; [apply Permutation_cons_append|].
      constructor; [|exact Hnd].
      intros Hin. apply in_map_iff in Hin as (r & E & Hr).
      specialize (Hlt r Hr). lia.
    + intros r Hr. apply in_app_or in Hr as [Hr|[<-|[]]].
      * specialize (Hlt r Hr). lia.
      * simpl. lia.
    + split; [exact H1|]. intros r Hr. specialize (H2 r Hr). lia.
Qed.

(** A run keeps the keys distinct and behind the sequence. *)
Lemma run_preserves_keys env w :
  keys_from_sequence w ->
  keys_from_sequence (snd (fetchDataAndSaveToDB env w)).
Proof.
  intros [Hnd Hlt].
  destruct (run_cases env w) as [(e & _ & E)|(html & doc & _ & _ & _ & E)];
    rewrite E; simpl.
  - now split.
  - unfold after_insert. rewrite (insert_values_pkey true _ _ Hlt).
    unfold keys_from_sequence. simpl. now apply rows_from_keys.
Qed.

Lemma empty_world_keys : keys_from_sequence empty_world.
Proof. split; [constructor|intros r []]. Qed.

(* ================================================================== *)
(** * Persisting a batch twice *)

(** With the table as the migration declares it, a batch is inserted in
    full each time it is persisted. *)
Lemma createMany_inserts_whole_batch env w data :
  db_failure env = None ->
  keys_from_sequence w ->
  prisma_price_createMany data true env w
  = (Resolved (List.length data),
     mkWorld (price_table w ++ rows_from (price_id_seq w) data)
             (price_id_seq w + Z.of_nat (List.length data))
             (console w)).
Proof.
  intros Hdb [_ Hlt]. unfold prisma_price_createMany.
  now rewrite Hdb, (insert_values_pkey true _ _ Hlt).
Qed.

(** C2. The claim fails on the code: persisting the batch of the fixture once leaves
    3 rows in an empty table, persisting it twice leaves 6. *)
Theorem same_batch_twice_doubles_rows :
  let persist := prisma_price_createMany fixture_batch true in
  List.length (price_table (snd (persist (serving fixture) empty_world)))
  = 3%nat /\
  List.length
    (price_table (snd ((persist ;;; persist) (serving fixture) empty_world)))
  = 6%nat /\
  fst ((persist ;;; persist) (serving fixture) empty_world) = Resolved 3%nat.
Proof. repeat split. Qed.

(** Two runs of the pipeline over the same page show the same. *)
Lemma two_runs_double_rows :
  List.length
    (price_table
       (snd ((fetchDataAndSaveToDB ;;; fetchDataAndSaveToDB)
               (serving fixture) empty_world)))
  = 6%nat.
Proof. reflexivity. Qed.

(** ** What a unique index over the natural key would give *)

Lemma jseqb_refl s : jseqb s s = true.
Proof.
  induction s as [|c s IH]; simpl; [reflexivity|].
  now rewrite N.eqb_refl, IH.
Qed.

Lemma natural_key_row_of old k k' d :
  natural_key old (row_of k d) = natural_key old (row_of k' d).
Proof. reflexivity. Qed.

Lemma natural_key_self k d : natural_key (row_of k d) (row_of k d) = true.
Proof.
  unfold natural_key. simpl. now rewrite Z.eqb_refl, !jseqb_refl.
Qed.

Section Natural_key.
Let indexes : list UniqueIndex := natural_key :: price_unique_indexes.

Let covered (table : list price.row) (d : PriceCreateManyInput.t) : Prop :=
  existsb (fun old => natural_key old (row_of 0 d)) table = true.

Lemma covered_app table new d : covered table d -> covered (table ++ new) d.
Proof.
  unfold covered. rewrite existsb_app. intros ->. reflexivity.
Qed.

Lemma collides_natural table k d :
  (forall old, In old table -> price.id old < k) ->
  collides indexes table (row_of k d)
  = existsb (fun old => natural_key old (row_of 0 d)) table.
Proof.
  intros Hlt. unfold indexes. unfold collides at 1. cbn [existsb].
  fold (collides price_unique_indexes table (row_of k d)).
  rewrite collides_pkey_fresh by (intros old Hin; simpl; now apply Hlt).
  rewrite orb_false_r. reflexivity.
Qed.

Lemma insert_values_covers data : forall table k,
  (forall old, In old table -> price.id old < k) ->
  let t := fst (fst (fst (insert_values indexes true table k data))) in
  let s := snd (fst (fst (insert_values indexes true table k data))) in
  (forall d, In d data -> covered t d) /\
  (forall d, covered table d -> covered t d) /\
  (forall old, In old t -> price.id old < s).
Proof.
  induction data as [|d ds IH]; intros table k Hlt; cbn zeta.
  - simpl. repeat split; [contradiction|tauto|exact Hlt].
  - cbn [insert_values]. rewrite (@collides_natural table k d Hlt).
    destruct (existsb (fun old => natural_key old (row_of 0 d)) table)
      eqn:Ecov.
    + destruct (IH table (k + 1)) as (H1 & H2 & H3).
      { intros old Hin. specialize (Hlt old Hin). lia. }
      repeat split; [|exact H2|exact H3].
      intros d' [<-|Hd']; [now apply H2|now apply H1].
    + destruct (IH (table ++ [row_of k d]) (k + 1)) as (H1 & H2 & H3).
      { intros old Hin. apply in_app_or in Hin as [Hin|[<-|[]]].
        - specialize (Hlt old Hin). lia.
        - simpl. lia. }
      destruct (insert_values indexes true (table ++ [row_of k d])
                              (k + 1) ds) as [[[t s] c] ok].
      simpl in *. repeat split; [| |exact H3].
      * intros d' [<-|Hd']; [|now apply H1].
        apply H2. unfold covered. rewrite existsb_app. simpl.
        rewrite (natural_key_row_of _ 0 k), natural_key_self.
        now rewrite orb_true_r.
      * intros d' Hd'. apply H2. now apply covered_app.
Qed.

Lemma insert_values_all_covered data : forall table k,
  (forall old, In old table -> price.id old < k) ->
  (forall d, In d data -> covered table d) ->
  insert_values indexes true table k data
  = (table, k + Z.of_nat (List.length data), 0%nat, true).
Proof.
  induction data as [|d ds IH]; intros table k Hlt Hcov.
  - simpl. now rewrite Z.add_0_r.
  - cbn [insert_values]. rewrite (@collides_natural table k d Hlt).
    rewrite (Hcov d (or_introl eq_refl)).
    rewrite IH.
    + cbn [List.length]. rewrite Nat2Z.inj_succ.
      replace (k + 1 + Z.of_nat (List.length ds))
        with (k + Z.succ (Z.of_nat (List.length ds))) by lia.
      reflexivity.
    + intros old Hin. specialize (Hlt old Hin). lia.
    + intros d' Hd'. apply Hcov. now right.
Qed.

(** Had the table a unique index over [(orderID, description, quote)],
    persisting a batch a second time would insert nothing. *)
Lemma natural_key_makes_persist_idempotent data table k :
  (forall old, In old table -> price.id old < k) ->
  let '(t1, s1, _, _) := insert_values indexes true table k data in
  insert_values indexes true t1 s1 data
  = (t1, s1 + Z.of_nat (List.length data), 0%nat, true).
Proof.
  intros Hlt.
  destruct (@insert_values_covers data table k Hlt) as (H1 & _ & H3).
  destruct (insert_values indexes true table k data) as [[[t1 s1] c] ok].
  simpl in *. now apply insert_values_all_covered.
Qed.
End Natural_key.

(* ================================================================== *)
(** * The routes *)

(** [GET /update] answers 200 whatever the run did: the promise it waits
    for is never rejected, so its [catch] branch is never taken. *)
Lemma get_update_always_200 (env : Env) (w : World) :
  get_update env w
  = (Resolved (mkResponse 200 (Send "Data updated")),
     snd (fetchDataAndSaveToDB env w)).
Proof.
  unfold get_update, then_catch, try_catch, bind, ret.
  pose proof (run_resolves env w) as H.
  destruct (fetchDataAndSaveToDB env w) as [[[]|e] w']; simpl in *;
    [reflexivity|discriminate].
Qed.

(** C3. The claim fails on the code: when the request to the page times out,
    [GET /update] still answers 200 "Data updated"; the failure only
    reaches the console. *)
Theorem update_answers_200_after_failed_fetch :
  get_update timing_out empty_world
  = (Resolved (mkResponse 200 (Send "Data updated")),
     log_failure "ETIMEDOUT"%string empty_world) /\
  stage_failure timing_out = Some "ETIMEDOUT"%string.
Proof.
  split; [|reflexivity].
  rewrite get_update_always_200.
  rewrite (@run_failure timing_out empty_world "ETIMEDOUT"%string eq_refl).
  reflexivity.
Qed.

(** C5. When the store answers, [GET /prices] responds 200 with the rows
    of the 5 largest keys (all the rows when there are fewer), largest key
    first: the answer has min(5, rows) rows, all from the table, in
    strictly decreasing key order, and every row left out has a smaller
    key than every row returned. *)
Theorem prices_returns_five_latest (env : Env) (w : World) :
  db_failure env = None ->
  NoDup (map price.id (price_table w)) ->
  exists rows,
    fst (get_prices env w) = Resolved (mkResponse 200 (JsonRows rows)) /\
    price_table (snd (get_prices env w)) = price_table w /\
    List.length rows = Nat.min 5 (List.length (price_table w)) /\
    StronglySorted id_gt rows /\
    incl rows (price_table w) /\
    (forall r r', In r (price_table w) -> ~ In r rows -> In r' rows ->
                  price.id r < price.id r').
Proof.
  intros Hdb Hnd.
  exists (firstn 5 (orderBy_id_desc (price_table w))).
  unfold get_prices, try_catch, bind, prisma_price_findMany_desc,
    console_log, ret.
  rewrite Hdb. simpl fst. simpl snd.
  split; [reflexivity|]. split; [reflexivity|].
  apply (@take_desc_spec 5 _ Hnd).
Qed.

Lemma prices_returns_10_9_8_7_6 :
  exists rows,
    fst (get_prices (serving []) world_with_ten_rows)
    = Resolved (mkResponse 200 (JsonRows rows)) /\
    map price.id rows = [10; 9; 8; 7; 6].
Proof.
  assert (Hnd : NoDup (map price.id (price_table world_with_ten_rows))).
  { apply (NoDup_map_inv (fun k => k)). rewrite map_id.
    repeat constructor; simpl; intuition discriminate. }
  destruct (@prices_returns_five_latest (serving []) world_with_ten_rows
              eq_refl Hnd) as (rows & E & _).
  exists rows. split; [exact E|].
  simpl in E. inversion E. reflexivity.
Defined.

(** When the store does not answer, the route responds 500. *)
Lemma prices_store_down env w e :
  db_failure env = Some e ->
  fst (get_prices env w)
  = Resolved (mkResponse 500 (JsonError "Error fetching data")).
Proof.
  intros Hdb.
  unfold get_prices, try_catch, bind, prisma_price_findMany_desc,
    console_error, ret.
  now rewrite Hdb.
Qed.

(* ================================================================== *)
(** * More on the pipeline: what a successful run stores *)

Lemma map_with_date_length now l : forall k,
  List.length (map_with_date now k l) = List.length l.
Proof.
  induction l as [|x l IH]; intros k; simpl; [reflexivity|]. now rewrite IH.
Qed.

Lemma map_with_date_nth now l : forall k i r,
  nth_error l i = Some r ->
  nth_error (map_with_date now k l) i
  = Some (PriceCreateManyInput.mk (Scraped.orderID r) (Scraped.figure r)
                                  (Scraped.description r) (Scraped.quote r)
                                  (now (k + i)%nat)).
Proof.
  induction l as [|x l IH]; intros k i r H.
  - destruct i; discriminate.
  - destruct i as [|i]; simpl in *.
    + inversion H; subst. now rewrite Nat.add_0_r.
    + rewrite (IH _ _ _ H). now rewrite Nat.add_succ_r.
Qed.

Lemma rows_from_nth data : forall next_id i d,
  nth_error data i = Some d ->
  nth_error (rows_from next_id data) i = Some (row_of (next_id + Z.of_nat i) d).
Proof.
  induction data as [|x data IH]; intros next_id i d H.
  - destruct i; discriminate.
  - destruct i as [|i]; cbn [nth_error rows_from] in *.
    + inversion H; subst. now rewrite Z.add_0_r.
    + rewrite (IH _ _ _ H). do 2 f_equal. lia.
Qed.

Lemma prices_length doc :
  List.length (prices doc) = count_in fact_wrapper doc.
Proof.
  rewrite prices_records, records_from_length. apply select_length.
Qed.

(** X1. A run whose stages all succeed, on a table whose keys come from the
    sequence, appends one row per wrapper element, in document order:
    consecutive keys from the sequence, [orderID] from 1, the texts of
    the wrapper, the shared quote, the clock's k-th time; it advances the
    sequence by as many and logs that count. *)
Theorem run_inserts_one_row_per_wrapper
        (env : Env) (w : World) (html : Html) (doc : Dom) :
  http_response env = Resolved html ->
  html_parser env html = Resolved doc ->
  db_failure env = None ->
  keys_from_sequence w ->
  let N := count_in fact_wrapper doc in
  let w' := snd (fetchDataAndSaveToDB env w) in
  List.length (price_table w') = (List.length (price_table w) + N)%nat /\
  price_id_seq w' = price_id_seq w + Z.of_nat N /\
  console w'
  = console w ++ [console_log_entry "Prices inserted into PostgreSQL:"
                                    (LoggedCount N)] /\
  (forall i r, nth_error (price_table w) i = Some r ->
               nth_error (price_table w') i = Some r) /\
  (forall i wrapper,
      nth_error (wrappers doc) i = Some wrapper ->
      nth_error (price_table w') (List.length (price_table w) + i)
      = Some (price.mk (price_id_seq w + Z.of_nat i) (Z.of_nat i + 1)
                       (parseFloat (figure_text_of wrapper))
                       (quote_text_of doc) (description_text_of wrapper)
                       (clock env i))).
Proof.
  intros H1 H2 H3 [Hnd Hlt] N w'.
  assert (E : w' = mkWorld
                (price_table w
                 ++ rows_from (price_id_seq w)
                      (map_with_date (clock env) 0 (prices doc)))
                (price_id_seq w + Z.of_nat N)
                (console w ++ [console_log_entry
                                 "Prices inserted into PostgreSQL:"
                                 (LoggedCount N)])).
  { unfold w'. rewrite (run_success env w H1 H2 H3). unfold after_insert.
    rewrite (insert_values_pkey true _ _ Hlt).
    now rewrite map_with_date_length, prices_length. }
  rewrite E. cbn [price_table price_id_seq console].
  split; [|split; [reflexivity|split; [reflexivity|split]]].
  - now rewrite length_app, rows_from_length, map_with_date_length,
      prices_length.
  - intros i r Hi. rewrite nth_error_app1; [exact Hi|].
    apply nth_error_Some. now rewrite Hi.
  - intros i wrapper Hi.
    rewrite nth_error_app2 by lia.
    replace (List.length (price_table w) + i - List.length (price_table w))%nat
      with i by lia.
    pose proof (prices_nth_by_tree _ _ Hi) as Hp.
    rewrite (rows_from_nth _ _ _ (map_with_date_nth (clock env) _ 0 _ Hp)).
    reflexivity.
Qed.

Lemma run_inserts_fixture :
  nth_error
    (price_table (snd (fetchDataAndSaveToDB (serving fixture)
                                            world_with_ten_rows))) 12
  = Some (price.mk 13 3 (Finite false 7 0) (js "Test quote") (js "third") 2).
Proof.
  assert (K : keys_from_sequence world_with_ten_rows).
  { split.
    - apply (NoDup_map_inv (fun k => k)). rewrite map_id.
      repeat constructor; simpl; intuition discriminate.
    - intros r Hr. simpl in Hr.
      repeat (destruct Hr as [<-|Hr]; [reflexivity|]). contradiction. }
  exact (proj2 (proj2 (proj2 (proj2
           (@run_inserts_one_row_per_wrapper (serving fixture)
              world_with_ten_rows (js "<html>") fixture
              eq_refl eq_refl eq_refl K))))
           2%nat (fact "7" "third") eq_refl).
Defined.

(** X2. Over any sequence of firings the process keeps running, the table
    only grows at its end, and the keys stay distinct and behind the
    sequence. *)
Theorem schedule_keeps_running_and_appending (days : list Env) :
  forall w,
    keys_from_sequence w ->
    exists w' new,
      cron_schedule days w = Running w' /\
      price_table w' = price_table w ++ new /\
      keys_from_sequence w'.
Proof.
  induction days as [|env rest IH]; intros w K.
  - exists w, []. simpl. now rewrite app_nil_r.
  - simpl. rewrite cron_fire_runs.
    destruct (run_appends env w) as (new1 & E1).
    destruct (IH _ (run_preserves_keys env K)) as (w' & new2 & Hr & E2 & K').
    exists w', (new1 ++ new2). split; [exact Hr|]. split; [|exact K'].
    now rewrite E2, E1, app_assoc.
Qed.

Lemma schedule_three_days :
  exists w' new,
    cron_schedule [serving fixture; timing_out; serving fixture] empty_world
    = Running w' /\
    price_table w' = price_table empty_world ++ new /\
    keys_from_sequence w'.
Proof.
  exact (schedule_keeps_running_and_appending
           [serving fixture; timing_out; serving fixture] empty_world_keys).
Defined.

(** ** [GET /prices] after a run *)

Lemma insert_desc_high r hi : forall lo,
  (forall x, In x hi -> price.id r < price.id x) ->
  insert_desc r (hi ++ lo) = hi ++ insert_desc r lo.
Proof.
  induction hi as [|x hi IH]; intros lo H; [reflexivity|].
  cbn [app insert_desc].
  assert (Hx : price.id r < price.id x) by (apply H; now left).
  destruct (Z.leb (price.id x) (price.id r)) eqn:E;
    [apply Z.leb_le in E; lia|].
  rewrite IH; [reflexivity|]. intros y Hy. apply H. now right.
Qed.

Lemma orderBy_id_desc_ascending l :
  StronglySorted (fun a b => price.id a < price.id b) l ->
  orderBy_id_desc l = rev l.
Proof.
  induction 1 as [|r l Hs IH Hr]; [reflexivity|].
  cbn [orderBy_id_desc fold_right rev].
  fold (orderBy_id_desc l). rewrite IH.
  rewrite <- (app_nil_r (rev l)) at 1.
  rewrite insert_desc_high; [reflexivity|].
  intros x Hx. apply in_rev in Hx. rewrite Forall_forall in Hr. now apply Hr.
Qed.

Lemma orderBy_id_desc_app old new :
  (forall x y, In x old -> In y new -> price.id x < price.id y) ->
  orderBy_id_desc (old ++ new) = orderBy_id_desc new ++ orderBy_id_desc old.
Proof.
  induction old as [|r old IH]; intros H.
  - simpl. now rewrite app_nil_r.
  - cbn [app orderBy_id_desc fold_right].
    fold (orderBy_id_desc (old ++ new)). fold (orderBy_id_desc old).
    rewrite IH by (intros x y Hx Hy; apply H; [now right|exact Hy]).
    apply insert_desc_high. intros x Hx.
    apply (Permutation_in _ (orderBy_id_desc_perm new)) in Hx.
    apply H; [now left|exact Hx].
Qed.

Lemma rows_from_ascending data : forall next_id,
  StronglySorted (fun a b => price.id a < price.id b) (rows_from next_id data)
  /\ (forall r, In r (rows_from next_id data) -> next_id <= price.id r).
Proof.
  induction data as [|d data IH]; intros next_id; simpl.
  - split; [constructor|contradiction].
  - destruct (IH (next_id + 1)) as [Hs Hge]. split.
    + constructor; [exact Hs|]. apply Forall_forall. intros r Hr.
      specialize (Hge r Hr). simpl. lia.
    + intros r [<-|Hr]; [simpl; lia|]. specialize (Hge r Hr). lia.
Qed.

Lemma rows_from_orderID data : forall next_id,
  map price.orderID (rows_from next_id data)
  = map PriceCreateManyInput.orderID data.
Proof.
  induction data as [|d data IH]; intros next_id; simpl; [reflexivity|].
  now rewrite IH.
Qed.

Lemma map_with_date_orderID now l : forall k,
  map PriceCreateManyInput.orderID (map_with_date now k l)
  = map Scraped.orderID l.
Proof.
  induction l as [|x l IH]; intros k; simpl; [reflexivity|]. now rewrite IH.
Qed.

Lemma prices_orderIDs doc :
  map Scraped.orderID (prices doc)
  = map Z.of_nat (seq 1 (count_in fact_wrapper doc)).
Proof.
  rewrite prices_records, records_from_orderID, select_length.
  rewrite <- seq_shift, map_map. apply map_ext. intros i. lia.
Qed.

(** X3. After a successful run, [GET /prices] shows the facts of that run
    last-to-first: the rows it returns are the first five of the run's rows
    in reverse page order followed by the older rows by decreasing key; so
    with five wrappers or more it shows only the last five facts of the
    page, [orderID] N, N-1, ... *)
Theorem prices_after_run_shows_last_facts
        (env env' : Env) (w : World) (html : Html) (doc : Dom) :
  http_response env = Resolved html ->
  html_parser env html = Resolved doc ->
  db_failure env = None ->
  db_failure env' = None ->
  keys_from_sequence w ->
  let N := count_in fact_wrapper doc in
  let w' := snd (fetchDataAndSaveToDB env w) in
  let new := rows_from (price_id_seq w)
                       (map_with_date (clock env) 0 (prices doc)) in
  fst (get_prices env' w')
  = Resolved (mkResponse 200
                (JsonRows (firstn 5 (rev new
                                     ++ orderBy_id_desc (price_table w))))) /\
  map price.orderID new = map Z.of_nat (seq 1 N) /\
  ((5 <= N)%nat ->
   fst (get_prices env' w')
   = Resolved (mkResponse 200 (JsonRows (firstn 5 (rev new))))).
Proof.
  intros H1 H2 H3 H3' [Hnd Hlt] N w' new.
  assert (Et : price_table w' = price_table w ++ new).
  { unfold w'. rewrite (run_success env w H1 H2 H3). unfold after_insert.
    now rewrite (insert_values_pkey true _ _ Hlt). }
  assert (Eg : fst (get_prices env' w')
               = Resolved (mkResponse 200
                   (JsonRows (firstn 5 (orderBy_id_desc (price_table w')))))).
  { unfold get_prices, try_catch, bind, prisma_price_findMany_desc,
      console_log, ret. now rewrite H3'. }
  assert (Es : orderBy_id_desc (price_table w')
               = rev new ++ orderBy_id_desc (price_table w)).
  { rewrite Et. unfold new.
    destruct (rows_from_ascending (map_with_date (clock env) 0 (prices doc))
                                  (price_id_seq w)) as [Hs Hge].
    rewrite orderBy_id_desc_app.
    - now rewrite (orderBy_id_desc_ascending Hs).
    - intros x y Hx Hy. specialize (Hlt x Hx). specialize (Hge y Hy). lia. }
  split; [now rewrite Eg, Es|]. split.
  - unfold new. now rewrite rows_from_orderID, map_with_date_orderID,
      prices_orderIDs.
  - intros HN. rewrite Eg, Es. do 3 f_equal.
    rewrite firstn_app.
    assert (Hl : List.length (rev new) = N).
    { unfold new. now rewrite length_rev, rows_from_length,
        map_with_date_length, prices_length. }
    rewrite Hl. replace (5 - N)%nat with 0%nat by lia.
    simpl. now rewrite app_nil_r.
Qed.

Lemma prices_after_run_fixture :
  exists rows,
    fst (get_prices (serving []) (snd (fetchDataAndSaveToDB (serving fixture)
                                                            empty_world)))
    = Resolved (mkResponse 200 (JsonRows rows)) /\
    map price.orderID rows = [3; 2; 1].
Proof.
  eexists. split.
  - exact (proj1 (@prices_after_run_shows_last_facts
                    (serving fixture) (serving []) empty_world (js "<html>")
                    fixture eq_refl eq_refl eq_refl eq_refl empty_world_keys)).
  - reflexivity.
Defined.

(** X4. [GET /prices] never changes the table and always answers: 200 with
    rows, or, when the store fails, 500 with the fixed message, the error
    going to the console only. *)
Theorem get_prices_only_reads (env : Env) (w : World) :
  price_table (snd (get_prices env w)) = price_table w /\
  price_id_seq (snd (get_prices env w)) = price_id_seq w /\
  match db_failure env with
  | None =>
      exists rows,
        fst (get_prices env w) = Resolved (mkResponse 200 (JsonRows rows))
  | Some e =>
      get_prices env w
      = (Resolved (mkResponse 500 (JsonError "Error fetching data")),
         mkWorld (price_table w) (price_id_seq w)
                 (console w ++ [console_error_entry "Error :"
                                                    (LoggedError e)]))
  end.
Proof.
  unfold get_prices, try_catch, bind, prisma_price_findMany_desc,
    console_log, console_error, ret.
  destruct (db_failure env) as [e|]; simpl.
  - repeat split; reflexivity.
  - repeat split; try reflexivity. eexists. reflexivity.
Qed.

(* ================================================================== *)
(** * More on [parseFloat]: a figure that starts with an integer *)

Lemma TrimStart_spaces ws s :
  forallb isStrWhiteSpaceChar ws = true -> TrimStart (ws ++ s) = TrimStart s.
Proof.
  induction ws as [|c ws IH]; intros H; [reflexivity|].
  simpl in H. apply andb_true_iff in H as [Hc H]. simpl. rewrite Hc. auto.
Qed.

Lemma digit_range c :
  isDecimalDigit c = true -> (48 <= c <= 57)%N.
Proof.
  unfold isDecimalDigit. intros H. apply andb_true_iff in H as [H1 H2].
  apply N.leb_le in H1, H2. lia.
Qed.

Lemma digit_not_space c :
  isDecimalDigit c = true -> isStrWhiteSpaceChar c = false.
Proof.
  intros H. apply digit_range in H. unfold isStrWhiteSpaceChar.
  repeat match goal with
         | |- context [N.eqb c ?k] =>
             replace (N.eqb c k) with false by (symmetry; apply N.eqb_neq; lia)
         end.
  replace (N.leb 8192 c) with false by (symmetry; apply N.leb_gt; lia).
  reflexivity.
Qed.

Lemma span_digits_exact ds rest :
  Forall (fun c => isDecimalDigit c = true) ds ->
  (forall c r, rest = c :: r -> isDecimalDigit c = false) ->
  span_digits (ds ++ rest) = (ds, rest).
Proof.
  intros Hds Hrest. induction Hds as [|d ds Hd _ IH]; simpl.
  - destruct rest as [|c r]; [reflexivity|].
    simpl. now rewrite (Hrest c r eq_refl).
  - now rewrite Hd, IH.
Qed.

(** X5. A figure text made of white space, an unsigned integer, and then
    anything that does not go on the number (no digit, no dot, no exponent
    mark) is read as that integer: the trailing text is ignored. *)
Theorem parseFloat_reads_leading_integer (ws ds rest : JSString) :
  forallb isStrWhiteSpaceChar ws = true ->
  DecimalDigits ds ->
  (forall c r, rest = c :: r ->
               isDecimalDigit c = false /\ N.eqb c DOT = false /\
               isExponentIndicator c = false) ->
  parseFloat (ws ++ ds ++ rest) = Finite false (digits_value ds) 0.
Proof.
  intros Hws [Hne Hds] Hrest.
  unfold parseFloat. rewrite (@TrimStart_spaces ws _ Hws).
  destruct ds as [|d ds]; [congruence|].
  pose proof (Forall_inv Hds) as Hd. cbn beta in Hd.
  pose proof (digit_range _ Hd) as Hr.
  cbn [app TrimStart]. rewrite (digit_not_space _ Hd).
  replace (N.eqb d PLUS) with false
    by (symmetry; apply N.eqb_neq; unfold PLUS; lia).
  replace (N.eqb d MINUS) with false
    by (symmetry; apply N.eqb_neq; unfold MINUS; lia).
  unfold parseUnsigned.
  assert (HI : starts_with (js "Infinity") (d :: ds ++ rest) = false).
  { change (starts_with (js "Infinity") (d :: ds ++ rest))
      with (N.eqb 73 d && starts_with (js "nfinity") (ds ++ rest)).
    replace (N.eqb 73 d) with false
      by (symmetry; apply N.eqb_neq; lia). reflexivity. }
  rewrite HI.
  change (d :: ds ++ rest) with ((d :: ds) ++ rest).
  rewrite (@span_digits_exact (d :: ds) rest Hds)
    by (intros c r E; now destruct (Hrest c r E)).
  destruct rest as [|c r]; [reflexivity|].
  destruct (Hrest c r eq_refl) as (_ & Hdot & He).
  rewrite Hdot. unfold exponent_part. now rewrite He.
Qed.

Lemma parseFloat_reads_7_million :
  parseFloat (js " 7 million") = Finite false 7 0.
Proof.
  apply (@parseFloat_reads_leading_integer (js " ") (js "7") (js " million")).
  - reflexivity.
  - split; [discriminate|]. repeat constructor.
  - intros c r E. inversion E; subst. repeat split.
Defined.

(* ================================================================== *)
(** * The middleware: who a request is authenticated as *)

Lemma jseqb_eq a : forall b, jseqb a b = true <-> a = b.
Proof.
  induction a as [|x a IH]; intros [|y b]; simpl; split; intros H;
    try reflexivity; try discriminate.
  - apply andb_true_iff in H as [Hx Ha]. apply N.eqb_eq in Hx.
    apply IH in Ha. now subst.
  - inversion H; subst. rewrite N.eqb_refl. simpl. now apply IH.
Qed.



Lemma authenticateToken_cases next ctx app :
  authenticateToken next ctx app
  = match authenticated ctx with
    | Some userId => next userId ctx app
    | None =>
        if falsy (Request.authorization (request ctx))
        then (Resolved (mkReply 401 (JsonErr "Authorization header missing")),
              app)
        else (Resolved (mkReply 403 (JsonErr "Invalid token")), app)
    end.
Proof.
  unfold authenticateToken, authenticated, presented_token.
  destruct (falsy (Request.authorization (request ctx))); [reflexivity|].
  destruct (jwt_verify _ _ _ _); reflexivity.
Qed.



(** X7. Without a token that verifies, no protected route does anything: the
    answer is 401 (no header) or 403, and the state is untouched (no
    statement is sent, nothing is logged). *)
Theorem protected_routes_need_verified_token
        (route : Route Reply) (ctx : Ctx) (app : App) :
  In route protected_routes ->
  authenticated ctx = None ->
  route ctx app
  = (Resolved
       (if falsy (Request.authorization (request ctx))
        then mkReply 401 (JsonErr "Authorization header missing")
        else mkReply 403 (JsonErr "Invalid token")),
     app).
Proof.
  intros Hin Hno.
  assert (G : forall next,
             authenticateToken next ctx app
             = (Resolved
                  (if falsy (Request.authorization (request ctx))
                   then mkReply 401 (JsonErr "Authorization header missing")
                   else mkReply 403 (JsonErr "Invalid token")), app)).
  { intros next. rewrite authenticateToken_cases, Hno.
    destruct (falsy _); reflexivity. }
  unfold protected_routes in Hin. simpl in Hin.
  repeat (destruct Hin as [<-|Hin]; [apply G|]). contradiction.
Qed.

Lemma delete_without_header_is_401 :
  delete_display (sample_ctx None empty_body (js "esp-kitchen") None)
                 sample_app
  = (Resolved (mkReply 401 (JsonErr "Authorization header missing")),
     sample_app).
Proof.
  apply (@protected_routes_need_verified_token delete_display
           (sample_ctx None empty_body (js "esp-kitchen") None) sample_app).
  - simpl. tauto.
  - reflexivity.
Defined.

(* ================================================================== *)
(** * The order of registration *)

(** X8. Whatever way the router matches paths, no request reaches the second
    handler registered for [POST /profile/image]: a request that matches
    it matches the first registration too. *)
Theorem second_profile_image_handler_is_dead
        {R : Type} (matching : string -> string -> R -> bool) (r : R) :
  dispatch matching r <> Some ProfileImageAgain.
Proof.
  unfold dispatch, registered. cbn [List.find fst snd].
  repeat match goal with
         | |- context [if ?b then _ else _] =>
             let E := fresh "E" in
             destruct b eqn:E; [cbn [option_map snd]; discriminate|]
         end.
  cbn [option_map]. discriminate.
Qed.

(* ================================================================== *)
(** * Start and stop *)


(** X10. The [SIGINT] handler always ends the process with exit code 0,
    whether or not the disconnection succeeds. *)
Theorem SIGINT_always_exits_0 (boot : Boot) (s : Server) :
  fst (SIGINT_handler boot s) = Resolved tt /\
  exit_code (snd (SIGINT_handler boot s)) = Some 0.
Proof.
  unfold SIGINT_handler, and_next, db_end, try_startup, and_next, print.
  destruct (disconnect_outcome boot) as [[]|e]; cbn; split; reflexivity.
Qed.

(* ================================================================== *)
(** * Accounts: signing up, logging in, changing the password *)

Lemma find_by_key {A K} (key : A -> K) (eqb : K -> K -> bool) :
  (forall a b, eqb a b = true <-> a = b) ->
  forall l r,
    NoDup (map key l) -> In r l ->
    List.find (fun x => eqb (key x) (key r)) l = Some r.
Proof.
  intros Heq l r. induction l as [|x l IH]; intros Hnd Hin; [contradiction|].
  simpl in Hnd. inversion Hnd as [|? ? Hnot Hnd']; subst.
  simpl. destruct Hin as [->|Hin].
  - now rewrite (proj2 (Heq (key r) (key r)) eq_refl).
  - destruct (eqb (key x) (key r)) eqn:E.
    + apply Heq in E. exfalso. apply Hnot. rewrite E. now apply in_map.
    + now apply IH.
Qed.

Lemma Z_eqb_iff a b : Z.eqb a b = true <-> a = b.
Proof. apply Z.eqb_eq. Qed.

Ltac route_unfold :=
  unfold post_signup, post_login, get_profile, post_profile_image,
    put_profile_password, delete_display, put_update_display,
    post_create_display, get_display, get_displays,
    try_route, and_then, answer, raise, req_body, req_file, req_displayId,
    filename_of, error_log, sign_token, hash_password, compare_password,
    user_findUnique_username, user_findFirst_username_or_email,
    user_findUnique_id, user_create, user_update, display_findFirst,
    display_findUnique, display_findMany, display_delete, display_update,
    statement.

Ltac rcbn :=
  cbn -[user_collides display_refused apply_data Z.add THIRTY_DAYS].

Ltac route_step :=
  match goal with
  | |- context [authenticated ?c] => destruct (authenticated c) eqn:?
  | |- context [falsy ?x] => destruct (falsy x) eqn:?
  | |- context [store_failure ?c ?k] => destruct (store_failure c k) eqn:?
  | |- context [List.find ?f ?l] => destruct (List.find f l) eqn:?
  | |- context [bcrypt_compare ?a ?b ?c] =>
      destruct (bcrypt_compare a b c) eqn:?
  | |- context [jwt_sign ?a ?b ?c ?d ?e] =>
      destruct (jwt_sign a b c d e) eqn:?
  | |- context [display_refused ?a ?b] =>
      destruct (display_refused a b) eqn:?
  | |- context [Request.file ?r] => destruct (Request.file r) eqn:?
  end.

Ltac unchanged_reply :=
  rcbn; eexists; split; [reflexivity|]; split; [reflexivity|];
  split; [reflexivity|]; left; split; [reflexivity|];
  split; [cbn; lia|cbn; discriminate].

(** What signing up can do to the tables. *)
Lemma signup_effect ctx app :
  exists reply,
    fst (post_signup ctx app) = Resolved reply /\
    display_table (snd (post_signup ctx app)) = display_table app /\
    display_id_seq (snd (post_signup ctx app)) = display_id_seq app /\
    ((user_table (snd (post_signup ctx app)) = user_table app /\
      user_id_seq app <= user_id_seq (snd (post_signup ctx app)) /\
      code reply <> 200) \/
     (let b := Request.body (request ctx) in
      let r := user.mk (user_id_seq app) (given (ReqBody.username b))
                       (given (ReqBody.email b))
                       (bcrypt_hash (libs ctx) (given (ReqBody.password b))
                                    10 (salt ctx)) None in
      user_table (snd (post_signup ctx app)) = user_table app ++ [r] /\
      user_id_seq (snd (post_signup ctx app)) = user_id_seq app + 1 /\
      user_collides r (user_table app) = false /\
      falsy (ReqBody.username b) = false /\
      falsy (ReqBody.email b) = false /\
      falsy (ReqBody.password b) = false /\
      statements (snd (post_signup ctx app)) = S (S (statements app)) /\
      match jwt_sign (libs ctx) (user_id_seq app) (JWT_SECRET ctx)
                     THIRTY_DAYS (Date_now ctx) with
      | Resolved token => reply = mkReply 200 (JsonToken token)
      | Rejected _ => code reply = 500
      end)).
Proof.
  route_unfold. rcbn.
  destruct (falsy (ReqBody.username (Request.body (request ctx)))) eqn:Fu;
    [unchanged_reply|].
  destruct (falsy (ReqBody.email (Request.body (request ctx)))) eqn:Fe;
    [unchanged_reply|].
  destruct (falsy (ReqBody.password (Request.body (request ctx)))) eqn:Fp;
    [unchanged_reply|].
  rcbn.
  destruct (store_failure ctx (statements app)) eqn:S1;
    [unchanged_reply|].
  destruct (List.find _ (user_table app)) eqn:Ffind;
    [unchanged_reply|].
  rcbn.
  destruct (store_failure ctx (S (statements app))) eqn:S2;
    [unchanged_reply|].
  destruct (user_collides _ (user_table app)) eqn:Hcol;
    [unchanged_reply|].
  rcbn.
  destruct (jwt_sign (libs ctx) (user_id_seq app) (JWT_SECRET ctx)
                     THIRTY_DAYS (Date_now ctx)) eqn:Hsign;
    rcbn; eexists; (split; [reflexivity|]); repeat (split; [reflexivity|]);
    right; rcbn; repeat split; assumption || reflexivity.
Qed.

Lemma not_collides r table :
  user_collides r table = false ->
  ~ In (user.id r) (map user.id table) /\
  ~ In (user.username r) (map user.username table) /\
  ~ In (user.email r) (map user.email table).
Proof.
  unfold user_collides. intros H.
  assert (G : forall old, In old table ->
            user.id old <> user.id r /\
            user.username old <> user.username r /\
            user.email old <> user.email r).
  { intros old Hin.
    pose proof (existsb_exists
                  (fun old => Z.eqb (user.id old) (user.id r)
                              || jseqb (user.username old) (user.username r)
                              || jseqb (user.email old) (user.email r))
                  table) as Hex.
    rewrite H in Hex.
    repeat split; intros E;
      (assert (true = false) by
          (symmetry; apply Hex; exists old; split; [exact Hin|];
           rewrite E, ?Z.eqb_refl, ?jseqb_refl, ?orb_true_r; reflexivity));
      discriminate. }
  repeat split; intros Hin; apply in_map_iff in Hin as (old & E & Hold);
    destruct (G old Hold) as (G1 & G2 & G3); congruence.
Qed.

Lemma NoDup_snoc {A} (l : list A) x : NoDup l -> ~ In x l -> NoDup (l ++ [x]).
Proof.
  intros Hnd Hnot. eapply Permutation_NoDup; [apply Permutation_cons_append|].
  now constructor.
Qed.

(** X11. Signing up never breaks the uniqueness of keys, user names and
    e-mail addresses, and never touches the displays, whatever the request
    and whatever fails. *)
Theorem signup_keeps_accounts_unique (ctx : Ctx) (app : App) :
  users_consistent app ->
  users_consistent (snd (post_signup ctx app)) /\
  display_table (snd (post_signup ctx app)) = display_table app /\
  exists reply, fst (post_signup ctx app) = Resolved reply.
Proof.
  intros (Hid & Hname & Hmail & Hlt).
  destruct (signup_effect ctx app) as (reply & Hr & Hd & _ & Hu).
  split; [|split; [exact Hd|now exists reply]].
  unfold users_consistent.
  destruct Hu as [(Et & Hs & _)|Hnew].
  - rewrite Et. repeat split; try assumption.
    intros r Hin. specialize (Hlt r Hin). lia.
  - cbv zeta in Hnew. destruct Hnew as (Et & Es & Hcol & _).
    apply not_collides in Hcol as (C1 & C2 & C3).
    rewrite Et, Es, !map_app. cbn [map].
    repeat split; try (apply NoDup_snoc; assumption).
    intros r Hin. apply in_app_or in Hin as [Hin|[<-|[]]].
    + specialize (Hlt r Hin). lia.
    + simpl. lia.
Qed.

Lemma sample_app_users_consistent : users_consistent sample_app.
Proof.
  unfold users_consistent, sample_app. cbn [user_table user_id_seq map].
  repeat split.
  - repeat constructor; simpl; intuition discriminate.
  - repeat constructor; simpl; intuition discriminate.
  - repeat constructor; simpl; intuition discriminate.
  - intros r [<-|[<-|[]]]; reflexivity.
Qed.

Lemma signup_keeps_sample_unique :
  users_consistent
    (snd (post_signup
            (sample_ctx None
               (credentials (Some (js "carol")) (Some (js "carol@example.org"))
                            (Some (js "pw"))) [] None)
            sample_app)).
Proof.
  exact (proj1 (@signup_keeps_accounts_unique
                  (sample_ctx None
                     (credentials (Some (js "carol"))
                                  (Some (js "carol@example.org"))
                                  (Some (js "pw"))) [] None)
                  sample_app sample_app_users_consistent)).
Defined.

(** X12. A sign-up is refused without touching the store when a field is
    missing or empty (400), and without storing anything when the user
    name or the e-mail address is already taken (409). *)
Theorem signup_refuses_incomplete_or_taken (ctx : Ctx) (app : App) :
  let b := Request.body (request ctx) in
  (falsy (ReqBody.username b) || falsy (ReqBody.email b)
   || falsy (ReqBody.password b) = true ->
   post_signup ctx app
   = (Resolved (mkReply 400
                  (JsonErr "Username, email, and password are required")),
      app)) /\
  (falsy (ReqBody.username b) || falsy (ReqBody.email b)
   || falsy (ReqBody.password b) = false ->
   store_failure ctx (statements app) = None ->
   (exists r, In r (user_table app) /\
              (user.username r = given (ReqBody.username b) \/
               user.email r = given (ReqBody.email b))) ->
   post_signup ctx app
   = (Resolved (mkReply 409 (JsonErr "Username or email already exists")),
      count_statement app)).
Proof.
  intros b. subst b. split.
  - intros F. route_unfold. rcbn. now rewrite F.
  - intros F S1 (r & Hin & Hr). route_unfold. rcbn. rewrite F, S1.
    destruct (List.find _ (user_table app)) eqn:Ffind; [reflexivity|].
    exfalso. pose proof (find_none _ _ Ffind r Hin) as Hn. cbn beta in Hn.
    destruct Hr as [E|E]; rewrite E, jseqb_refl in Hn;
      [|rewrite orb_true_r in Hn]; discriminate.
Qed.

Lemma signup_taken_name_sample :
  fst (post_signup
         (sample_ctx None
            (credentials (Some (js "alice")) (Some (js "other@example.org"))
                         (Some (js "pw"))) [] None)
         sample_app)
  = Resolved (mkReply 409 (JsonErr "Username or email already exists")).
Proof.
  rewrite (proj2 (signup_refuses_incomplete_or_taken
                    (sample_ctx None
                       (credentials (Some (js "alice"))
                                    (Some (js "other@example.org"))
                                    (Some (js "pw"))) [] None)
                    sample_app) eq_refl eq_refl).
  - reflexivity.
  - exists alice. split; [now left|now left].
Defined.

(** X13. A sign-up that answers 200 has stored exactly one new account, last
    in the table: the next key of the sequence, the name and address of
    the request, no image, and as password the bcrypt hash of the
    request's password (10 rounds); no account had that name or address;
    the token it returns is signed for the new key, for thirty days. *)
Theorem signup_stores_one_hashed_account
        (ctx : Ctx) (app : App) (reply : Reply) :
  fst (post_signup ctx app) = Resolved reply ->
  code reply = 200 ->
  let b := Request.body (request ctx) in
  let hashed := bcrypt_hash (libs ctx) (given (ReqBody.password b)) 10
                            (salt ctx) in
  user_table (snd (post_signup ctx app))
  = user_table app
    ++ [user.mk (user_id_seq app) (given (ReqBody.username b))
                (given (ReqBody.email b)) hashed None] /\
  (forall old, In old (user_table app) ->
               user.username old <> given (ReqBody.username b) /\
               user.email old <> given (ReqBody.email b)) /\
  exists token,
    reply = mkReply 200 (JsonToken token) /\
    jwt_sign (libs ctx) (user_id_seq app) (JWT_SECRET ctx) THIRTY_DAYS
             (Date_now ctx) = Resolved token.
Proof.
  intros Hr Hc b hashed. subst b hashed.
  destruct (signup_effect ctx app) as (reply' & Hr' & _ & _ & Hu).
  rewrite Hr in Hr'. inversion Hr'; subst reply'.
  destruct Hu as [(_ & _ & Hne)|Hnew]; [congruence|].
  cbv zeta in Hnew. destruct Hnew as (Et & _ & Hcol & _ & _ & _ & _ & Hs).
  split; [exact Et|]. split.
  - apply not_collides in Hcol as (_ & C2 & C3). cbn in C2, C3.
    intros old Hin. split; intros E.
    + apply C2. rewrite <- E. now apply in_map.
    + apply C3. rewrite <- E. now apply in_map.
  - destruct (jwt_sign _ _ _ _ _) as [token|e].
    + now exists token.
    + rewrite Hs in Hc. discriminate.
Qed.

Lemma signup_carol_sample :
  user_table
    (snd (post_signup
            (sample_ctx None
               (credentials (Some (js "carol")) (Some (js "carol@example.org"))
                            (Some (js "pw"))) [] None)
            sample_app))
  = [alice; bob;
     user.mk 3 (js "carol") (js "carol@example.org")
             (bcrypt_hash sample_libs (js "pw") 10 5) None].
Proof.
  exact (proj1 (@signup_stores_one_hashed_account
                  (sample_ctx None
                     (credentials (Some (js "carol"))
                                  (Some (js "carol@example.org"))
                                  (Some (js "pw"))) [] None)
                  sample_app _ eq_refl eq_refl)).
Defined.

Lemma find_last {A} (f : A -> bool) l r :
  (forall x, In x l -> f x = false) -> f r = true ->
  List.find f (l ++ [r]) = Some r.
Proof.
  induction l as [|x l IH]; intros Hl Hr; simpl.
  - now rewrite Hr.
  - rewrite (Hl x (or_introl eq_refl)). apply IH; [|exact Hr].
    intros y Hy. apply Hl. now right.
Qed.

(** What [POST /login] answers once the account is looked up. *)
Lemma login_found ctx app r :
  let b := Request.body (request ctx) in
  falsy (ReqBody.username b) = false ->
  falsy (ReqBody.password b) = false ->
  store_failure ctx (statements app) = None ->
  List.find (fun x => jseqb (user.username x) (given (ReqBody.username b)))
            (user_table app) = Some r ->
  post_login ctx app
  = (if bcrypt_compare (libs ctx) (given (ReqBody.password b))
                       (user.password r)
     then match jwt_sign (libs ctx) (user.id r) (JWT_SECRET ctx) THIRTY_DAYS
                         (Date_now ctx) with
          | Resolved token =>
              (Resolved (mkReply 200 (JsonTokens token token)),
               count_statement app)
          | Rejected e =>
              (Resolved (mkReply 500
                           (JsonErr "An error occurred during login")),
               add_line (error_line "Error during login:" e)
                        (count_statement app))
          end
     else (Resolved (mkReply 401 (JsonErr "Invalid username or password")),
           count_statement app)).
Proof.
  intros b Fu Fp S1 Hf. subst b. route_unfold. rcbn.
  rewrite Fu, Fp. rcbn. rewrite S1. rcbn. rewrite Hf. rcbn.
  destruct (bcrypt_compare _ _ _); rcbn; [|reflexivity].
  destruct (jwt_sign _ _ _ _ _); reflexivity.
Qed.

(** X14. After a sign-up that answered 200, logging in with the same name and
    password answers 200 with a token for the new account, provided
    bcrypt recognises the password it hashed. *)
Theorem signup_then_login
        (ctx ctx2 : Ctx) (app : App) (reply : Reply) (token : JSString) :
  fst (post_signup ctx app) = Resolved reply ->
  code reply = 200 ->
  let b := Request.body (request ctx) in
  let b2 := Request.body (request ctx2) in
  libs ctx2 = libs ctx ->
  ReqBody.username b2 = ReqBody.username b ->
  ReqBody.password b2 = ReqBody.password b ->
  store_failure ctx2 (statements (snd (post_signup ctx app))) = None ->
  bcrypt_compare (libs ctx) (given (ReqBody.password b))
                 (bcrypt_hash (libs ctx) (given (ReqBody.password b)) 10
                              (salt ctx)) = true ->
  jwt_sign (libs ctx) (user_id_seq app) (JWT_SECRET ctx2) THIRTY_DAYS
           (Date_now ctx2) = Resolved token ->
  fst (post_login ctx2 (snd (post_signup ctx app)))
  = Resolved (mkReply 200 (JsonTokens token token)).
Proof.
  intros Hr Hc b b2 Hl Eu Ep S1 Hcmp Hsign. subst b b2.
  destruct (signup_effect ctx app) as (reply' & Hr' & _ & _ & Hu).
  rewrite Hr in Hr'. inversion Hr'; subst reply'.
  destruct Hu as [(_ & _ & Hne)|Hnew]; [congruence|].
  cbv zeta in Hnew.
  destruct Hnew as (Et & _ & Hcol & Fu & _ & Fp & _ & _).
  apply not_collides in Hcol as (_ & C2 & _). cbn in C2.
  rewrite (@login_found ctx2 (snd (post_signup ctx app))
             (user.mk (user_id_seq app)
                (given (ReqBody.username (Request.body (request ctx))))
                (given (ReqBody.email (Request.body (request ctx))))
                (bcrypt_hash (libs ctx)
                   (given (ReqBody.password (Request.body (request ctx))))
                   10 (salt ctx)) None)).
  - rewrite Hl, Ep. cbn [user.password user.id]. rewrite Hcmp, Hsign.
    reflexivity.
  - now rewrite Eu.
  - now rewrite Ep.
  - exact S1.
  - rewrite Et, Eu. apply find_last.
    + intros x Hx. apply not_true_is_false. intros E. apply jseqb_eq in E.
      apply C2. rewrite <- E. now apply in_map.
    + apply jseqb_refl.
Qed.

Lemma signup_then_login_carol :
  fst (post_login
         (sample_ctx None (credentials (Some (js "carol")) None
                                       (Some (js "pw"))) [] None)
         (snd (post_signup
                 (sample_ctx None
                    (credentials (Some (js "carol"))
                                 (Some (js "carol@example.org"))
                                 (Some (js "pw"))) [] None)
                 sample_app)))
  = Resolved (mkReply 200 (JsonTokens (token_of 3) (token_of 3))).
Proof.
  exact (@signup_then_login
           (sample_ctx None
              (credentials (Some (js "carol")) (Some (js "carol@example.org"))
                           (Some (js "pw"))) [] None)
           (sample_ctx None (credentials (Some (js "carol")) None
                                         (Some (js "pw"))) [] None)
           sample_app _ (token_of 3)
           eq_refl eq_refl eq_refl eq_refl eq_refl eq_refl eq_refl eq_refl).
Defined.



(** ** Changing one account *)

Lemma find_map_same_key {A} (f : A -> bool) (g : A -> A) l :
  (forall x, f (g x) = f x) ->
  List.find f (map g l) = option_map g (List.find f l).
Proof.
  intros H. induction l as [|x l IH]; [reflexivity|].
  simpl. rewrite H. destruct (f x); [reflexivity|exact IH].
Qed.

Lemma map_update_user uid (change : user.row -> user.row) table :
  (forall r, user.id (change r) = user.id r /\
             user.username (change r) = user.username r /\
             user.email (change r) = user.email r) ->
  let table' := map (fun r => if Z.eqb (user.id r) uid then change r else r)
                    table in
  map user.id table' = map user.id table /\
  map user.username table' = map user.username table /\
  map user.email table' = map user.email table /\
  (forall r, In r table -> user.id r <> uid -> In r table').
Proof.
  intros H table'. subst table'.
  repeat split; try (rewrite map_map; apply map_ext; intros r;
                     destruct (Z.eqb (user.id r) uid); [apply H|reflexivity]).
  intros r Hin Hne. apply in_map_iff. exists r. split; [|exact Hin].
  destruct (Z.eqb (user.id r) uid) eqn:E; [|reflexivity].
  apply Z.eqb_eq in E. contradiction.
Qed.

(** What [PUT /profile/password] can do to the tables. *)
Lemma password_effect ctx app :
  exists reply,
    fst (put_profile_password ctx app) = Resolved reply /\
    display_table (snd (put_profile_password ctx app)) = display_table app /\
    user_id_seq (snd (put_profile_password ctx app)) = user_id_seq app /\
    ((user_table (snd (put_profile_password ctx app)) = user_table app /\
      code reply <> 200) \/
     (exists uid,
        let p := ReqBody.password (Request.body (request ctx)) in
        authenticated ctx = Some uid /\
        falsy p = false /\
        reply = mkReply 200 (SendText "Password updated successfully") /\
        statements (snd (put_profile_password ctx app)) = S (statements app) /\
        user_table (snd (put_profile_password ctx app))
        = map (fun r =>
                 if Z.eqb (user.id r) uid
                 then set_password
                        (bcrypt_hash (libs ctx) (given p) 10 (salt ctx)) r
                 else r) (user_table app))).
Proof.
  route_unfold. rewrite authenticateToken_cases.
  destruct (authenticated ctx) as [uid|] eqn:Ha.
  - rcbn.
    destruct (falsy (ReqBody.password (Request.body (request ctx)))) eqn:Fp;
      [rcbn; eexists; repeat (split; [reflexivity|]); left;
       split; [reflexivity|discriminate]|].
    rcbn.
    destruct (store_failure ctx (statements app)) eqn:S1;
      [rcbn; eexists; repeat (split; [reflexivity|]); left;
       split; [reflexivity|discriminate]|].
    destruct (List.find _ (user_table app)) eqn:Hf;
      [|rcbn; eexists; repeat (split; [reflexivity|]); left;
        split; [reflexivity|discriminate]].
    rcbn. eexists. repeat (split; [reflexivity|]). right.
    exists uid. rcbn. repeat split; assumption || reflexivity.
  - destruct (falsy _); rcbn; eexists; repeat (split; [reflexivity|]); left;
      (split; [reflexivity|discriminate]).
Qed.

(** X16. Changing the password changes nothing else: every account keeps its
    key, name, address and image, the accounts of others keep their
    password too, and the displays are untouched, whatever the request
    and whatever fails. *)
Theorem password_change_keeps_identities (ctx : Ctx) (app : App) :
  let app' := snd (put_profile_password ctx app) in
  map user.id (user_table app') = map user.id (user_table app) /\
  map user.username (user_table app') = map user.username (user_table app) /\
  map user.email (user_table app') = map user.email (user_table app) /\
  map user.profileImage (user_table app')
  = map user.profileImage (user_table app) /\
  (forall r, In r (user_table app) ->
             authenticated ctx <> Some (user.id r) ->
             In r (user_table app')) /\
  display_table app' = display_table app.
Proof.
  intros app'. subst app'.
  destruct (password_effect ctx app) as (reply & _ & Hd & _ & Hu).
  destruct Hu as [(Et & _)|(uid & Hnew)].
  - rewrite Et. repeat split; try reflexivity; try assumption.
    intros r Hin _. exact Hin.
  - cbv zeta in Hnew. destruct Hnew as (Ha & _ & _ & _ & Et).
    rewrite Et.
    destruct (@map_update_user uid
                (set_password
                   (bcrypt_hash (libs ctx)
                      (given (ReqBody.password (Request.body (request ctx))))
                      10 (salt ctx)))
                (user_table app)) as (M1 & M2 & M3 & M4);
      [intros r; repeat split|].
    repeat split; try assumption.
    + rewrite map_map. apply map_ext. intros r.
      now destruct (Z.eqb (user.id r) uid).
    + intros r Hin Hne. apply M4; [exact Hin|]. intros E. apply Hne.
      now rewrite Ha, E.
Qed.

(** X17. After a password change that the store carried out, the account logs
    in with the new password (provided bcrypt recognises the password it
    hashed); the change needs a non-empty password, else it answers 400
    and does nothing. *)
Theorem password_change_then_login
        (ctx ctx2 : Ctx) (app : App) (r : user.row) (token : JSString) :
  let p := ReqBody.password (Request.body (request ctx)) in
  let b2 := Request.body (request ctx2) in
  let app' := snd (put_profile_password ctx app) in
  authenticated ctx = Some (user.id r) ->
  In r (user_table app) ->
  users_consistent app ->
  user.username r <> [] ->
  store_failure ctx (statements app) = None ->
  libs ctx2 = libs ctx ->
  ReqBody.username b2 = Some (user.username r) ->
  ReqBody.password b2 = p ->
  store_failure ctx2 (statements app') = None ->
  bcrypt_compare (libs ctx) (given p)
                 (bcrypt_hash (libs ctx) (given p) 10 (salt ctx)) = true ->
  jwt_sign (libs ctx) (user.id r) (JWT_SECRET ctx2) THIRTY_DAYS
           (Date_now ctx2) = Resolved token ->
  (falsy p = true ->
   put_profile_password ctx app
   = (Resolved (mkReply 400 (JsonErr "New password is required")), app)) /\
  (falsy p = false ->
   fst (put_profile_password ctx app)
   = Resolved (mkReply 200 (SendText "Password updated successfully")) /\
   fst (post_login ctx2 app')
   = Resolved (mkReply 200 (JsonTokens token token))).
Proof.
  intros p b2 app' Ha Hin (Hid & Hname & _ & _) Hne S1 Hl Eu Ep S2 Hcmp Hsign.
  subst p b2 app'.
  assert (Hfind : List.find (fun x => Z.eqb (user.id x) (user.id r))
                            (user_table app) = Some r).
  { apply (find_by_key user.id Z.eqb Z_eqb_iff); assumption. }
  split.
  - intros Fp. unfold put_profile_password.
    rewrite authenticateToken_cases, Ha. route_unfold. rcbn. now rewrite Fp.
  - intros Fp.
    assert (E : put_profile_password ctx app
                = (Resolved (mkReply 200
                               (SendText "Password updated successfully")),
                   set_users
                     (map (fun x =>
                             if Z.eqb (user.id x) (user.id r)
                             then set_password
                                    (bcrypt_hash (libs ctx)
                                       (given (ReqBody.password
                                                 (Request.body (request ctx))))
                                       10 (salt ctx)) x
                             else x) (user_table app))
                     (user_id_seq app) (count_statement app))).
    { unfold put_profile_password.
      rewrite authenticateToken_cases, Ha. route_unfold. rcbn.
      rewrite Fp. rcbn. rewrite S1. rcbn. now rewrite Hfind. }
    rewrite E in *. split; [reflexivity|].
    cbn [snd] in *.
    rewrite (@login_found ctx2 _
               (set_password
                  (bcrypt_hash (libs ctx)
                     (given (ReqBody.password (Request.body (request ctx))))
                     10 (salt ctx)) r)).
    + rewrite Hl, Ep. cbn [set_password user.password user.id].
      now rewrite Hcmp, Hsign.
    + rewrite Eu. destruct (user.username r); [congruence|reflexivity].
    + now rewrite Ep.
    + exact S2.
    + rewrite Eu. cbn [given set_users user_table].
      rewrite (find_map_same_key
                 (fun x => jseqb (user.username x) (user.username r))).
      * rewrite (find_by_key user.username jseqb jseqb_eq _ _ Hname Hin).
        cbn [option_map]. now rewrite Z.eqb_refl.
      * intros x. now destruct (Z.eqb (user.id x) (user.id r)).
Qed.

Lemma password_change_alice :
  fst (post_login
         (sample_ctx None (credentials (Some (js "alice")) None
                                       (Some (js "looking-glass"))) [] None)
         (snd (put_profile_password
                 (sample_ctx (bearer 1)
                    (credentials None None (Some (js "looking-glass")))
                    [] None)
                 sample_app)))
  = Resolved (mkReply 200 (JsonTokens (token_of 1) (token_of 1))).
Proof.
  refine (proj2 (proj2 (@password_change_then_login
            (sample_ctx (bearer 1)
               (credentials None None (Some (js "looking-glass"))) [] None)
            (sample_ctx None (credentials (Some (js "alice")) None
                                          (Some (js "looking-glass")))
                        [] None)
            sample_app alice (token_of 1)
            eq_refl (or_introl eq_refl) sample_app_users_consistent _
            eq_refl eq_refl eq_refl eq_refl eq_refl eq_refl eq_refl)
            eq_refl)).
  discriminate.
Defined.

(** ** The profile *)

Lemma get_profile_found ctx app r :
  authenticated ctx = Some (user.id r) ->
  store_failure ctx (statements app) = None ->
  List.find (fun x => Z.eqb (user.id x) (user.id r)) (user_table app)
  = Some r ->
  get_profile ctx app
  = (Resolved (mkReply 200
                 (JsonProfile (user.id r) (user.username r) (user.email r)
                              (profile_image_url (user.profileImage r)))),
     count_statement app).
Proof.
  intros Ha S1 Hf. unfold get_profile.
  rewrite authenticateToken_cases, Ha. route_unfold. rcbn.
  rewrite S1. rcbn. now rewrite Hf.
Qed.

(** X18. [GET /profile] answers with the key, name and address of the account
    the token was signed for and with the address of its image, which
    ends in [null] for an account without image; it answers 404 when no
    account has that key. *)
Theorem profile_shows_the_token_account (ctx : Ctx) (app : App) (uid : Z) :
  authenticated ctx = Some uid ->
  store_failure ctx (statements app) = None ->
  NoDup (map user.id (user_table app)) ->
  (forall r, In r (user_table app) -> user.id r = uid ->
     get_profile ctx app
     = (Resolved (mkReply 200
                    (JsonProfile uid (user.username r) (user.email r)
                       (js "http://localhost:8000/images/"
                        ++ match user.profileImage r with
                           | Some filename => filename
                           | None => js "null"
                           end))),
        count_statement app)) /\
  ((forall r, In r (user_table app) -> user.id r <> uid) ->
   get_profile ctx app
   = (Resolved (mkReply 404 (JsonErr "User not found")),
      count_statement app)).
Proof.
  intros Ha S1 Hnd. split.
  - intros r Hin <-.
    rewrite (@get_profile_found ctx app r Ha S1).
    + unfold profile_image_url. now destruct (user.profileImage r).
    + apply (find_by_key user.id Z.eqb Z_eqb_iff); assumption.
  - intros Hno. unfold get_profile.
    rewrite authenticateToken_cases, Ha. route_unfold. rcbn.
    rewrite S1. rcbn.
    destruct (List.find _ (user_table app)) as [r|] eqn:Hf; [|reflexivity].
    apply find_some in Hf as [Hin E]. apply Z.eqb_eq in E.
    now destruct (Hno r Hin).
Qed.

Lemma profile_of_alice :
  fst (get_profile (sample_ctx (bearer 1) empty_body [] None) sample_app)
  = Resolved (mkReply 200
                (JsonProfile 1 (js "alice") (js "alice@example.org")
                             (js "http://localhost:8000/images/null"))).
Proof.
  rewrite (proj1 (@profile_shows_the_token_account
                    (sample_ctx (bearer 1) empty_body [] None) sample_app 1
                    eq_refl eq_refl
                    (proj1 sample_app_users_consistent))
                 alice (or_introl eq_refl) eq_refl).
  reflexivity.
Defined.

(** X19. An uploaded image becomes the image of the profile: after
    [POST /profile/image] with a file, [GET /profile] of the same account
    gives the address of that file; without a file the route answers 500
    before any statement is sent. *)
Theorem image_upload_then_profile
        (ctx ctx2 : Ctx) (app : App) (r : user.row) :
  let app' := snd (post_profile_image ctx app) in
  authenticated ctx = Some (user.id r) ->
  authenticated ctx2 = Some (user.id r) ->
  In r (user_table app) ->
  NoDup (map user.id (user_table app)) ->
  store_failure ctx (statements app) = None ->
  store_failure ctx2 (statements app') = None ->
  (forall filename,
      Request.file (request ctx) = Some filename ->
      fst (post_profile_image ctx app)
      = Resolved (mkReply 200 (SendText "Image profile updated")) /\
      fst (get_profile ctx2 app')
      = Resolved (mkReply 200
                    (JsonProfile (user.id r) (user.username r) (user.email r)
                       (js "http://localhost:8000/images/" ++ filename)))) /\
  (Request.file (request ctx) = None ->
   exists e,
     post_profile_image ctx app
     = (Resolved (mkReply 500 (JsonErr "Error updating image profile")),
        add_line (error_line "Error updating image profile:" e) app)).
Proof.
  intros app' Ha Ha2 Hin Hnd S1 S2. subst app'.
  assert (Hfind : List.find (fun x => Z.eqb (user.id x) (user.id r))
                            (user_table app) = Some r).
  { apply (find_by_key user.id Z.eqb Z_eqb_iff); assumption. }
  split.
  - intros filename Hfile.
    assert (E : post_profile_image ctx app
                = (Resolved (mkReply 200 (SendText "Image profile updated")),
                   set_users
                     (map (fun x => if Z.eqb (user.id x) (user.id r)
                                    then set_profileImage filename x else x)
                          (user_table app))
                     (user_id_seq app) (count_statement app))).
    { unfold post_profile_image.
      rewrite authenticateToken_cases, Ha. route_unfold. rcbn.
      rewrite Hfile. rcbn. rewrite S1. rcbn. now rewrite Hfind. }
    rewrite E in *. split; [reflexivity|]. cbn [snd] in *.
    rewrite (@get_profile_found ctx2 _ (set_profileImage filename r)).
    + reflexivity.
    + exact Ha2.
    + exact S2.
    + cbn [set_users user_table set_profileImage user.id].
      rewrite (find_map_same_key
                 (fun x => Z.eqb (user.id x) (user.id r))).
      * rewrite Hfind. cbn [option_map]. now rewrite Z.eqb_refl.
      * intros x.
        destruct (Z.eqb (user.id x) (user.id r)) eqn:Ex; cbn;
          rewrite ?Ex; reflexivity.
  - intros Hfile. eexists. unfold post_profile_image.
    rewrite authenticateToken_cases, Ha. route_unfold. rcbn.
    rewrite Hfile. reflexivity.
Qed.

Lemma image_upload_alice :
  fst (get_profile
         (sample_ctx (bearer 1) empty_body [] None)
         (snd (post_profile_image
                 (sample_ctx (bearer 1) empty_body []
                             (Some (js "1690000000000-7-me.png")))
                 sample_app)))
  = Resolved (mkReply 200
                (JsonProfile 1 (js "alice") (js "alice@example.org")
                   (js "http://localhost:8000/images/1690000000000-7-me.png"))).
Proof.
  exact (proj2 (proj1 (@image_upload_then_profile
           (sample_ctx (bearer 1) empty_body []
                       (Some (js "1690000000000-7-me.png")))
           (sample_ctx (bearer 1) empty_body [] None)
           sample_app alice eq_refl eq_refl (or_introl eq_refl)
           (proj1 sample_app_users_consistent) eq_refl eq_refl)
           (js "1690000000000-7-me.png") eq_refl)).
Defined.

(** ** Routes that only read *)

(** X20. Logging in, reading the profile, reading one display and listing the
    displays never change a table or a sequence, and always answer,
    whatever the request and whatever fails. *)
Theorem reading_routes_never_write
        (route : Route Reply) (ctx : Ctx) (app : App) :
  In route reading_routes ->
  let app' := snd (route ctx app) in
  user_table app' = user_table app /\
  user_id_seq app' = user_id_seq app /\
  display_table app' = display_table app /\
  display_id_seq app' = display_id_seq app /\
  exists reply, fst (route ctx app) = Resolved reply.
Proof.
  intros Hin app'. subst app'. unfold reading_routes in Hin. simpl in Hin.
  destruct Hin as [<-|[<-|[<-|[<-|[]]]]].
  - route_unfold. rcbn.
    repeat (route_step; rcbn);
      repeat split; try reflexivity; eexists; reflexivity.
  - unfold get_profile. rewrite authenticateToken_cases.
    route_unfold. rcbn.
    repeat (route_step; rcbn);
      repeat split; try reflexivity; eexists; reflexivity.
  - unfold get_display. rewrite authenticateToken_cases.
    route_unfold. rcbn.
    repeat (route_step; rcbn);
      repeat split; try reflexivity; eexists; reflexivity.
  - unfold get_displays. rewrite authenticateToken_cases.
    route_unfold. rcbn.
    repeat (route_step; rcbn);
      repeat split; try reflexivity; eexists; reflexivity.
Qed.

Lemma failed_login_leaves_sample :
  user_table
    (snd (post_login
            (sample_ctx None (credentials (Some (js "alice")) None
                                          (Some (js "guess"))) [] None)
            sample_app))
  = [alice; bob].
Proof.
  exact (proj1 (@reading_routes_never_write post_login
                  (sample_ctx None (credentials (Some (js "alice")) None
                                                (Some (js "guess"))) [] None)
                  sample_app (or_introl eq_refl))).
Defined.

(* ================================================================== *)
(** * Displays *)


(** ** Deleting *)

Lemma same_key_same_row {A K} (key : A -> K) l a b :
  NoDup (map key l) -> In a l -> In b l -> key a = key b -> a = b.
Proof.
  induction l as [|x l IH]; intros Hnd Ha Hb E; [contradiction|].
  simpl in Hnd. inversion Hnd as [|? ? Hnot Hnd']; subst.
  destruct Ha as [->|Ha], Hb as [->|Hb].
  - reflexivity.
  - exfalso. apply Hnot. rewrite E. now apply in_map.
  - exfalso. apply Hnot. rewrite <- E. now apply in_map.
  - now apply IH.
Qed.

(** What [DELETE /delete-display/:displayId] can do to the tables. *)
Lemma delete_effect ctx app :
  exists reply,
    fst (delete_display ctx app) = Resolved reply /\
    user_table (snd (delete_display ctx app)) = user_table app /\
    display_id_seq (snd (delete_display ctx app)) = display_id_seq app /\
    ((display_table (snd (delete_display ctx app)) = display_table app /\
      code reply <> 200) \/
     (exists uid d,
        authenticated ctx = Some uid /\
        In d (display_table app) /\
        display.display_id d = Request.displayId (request ctx) /\
        display.userId d = uid /\
        reply = mkReply 200 (SendText "Display deleted") /\
        display_table (snd (delete_display ctx app))
        = filter (fun x => negb (Z.eqb (display.id x) (display.id d)))
                 (display_table app))).
Proof.
  unfold delete_display. rewrite authenticateToken_cases.
  destruct (authenticated ctx) as [uid|] eqn:Ha.
  - route_unfold. rcbn.
    destruct (store_failure ctx (statements app)) eqn:S1; rcbn;
      [eexists; repeat (split; [reflexivity|]); left;
       split; [reflexivity|discriminate]|].
    destruct (List.find _ (display_table app)) as [d|] eqn:Hf; rcbn;
      [|eexists; repeat (split; [reflexivity|]); left;
        split; [reflexivity|discriminate]].
    destruct (store_failure ctx (S (statements app))) eqn:S2; rcbn;
      [eexists; repeat (split; [reflexivity|]); left;
       split; [reflexivity|discriminate]|].
    destruct (List.find (fun x => Z.eqb (display.id x) (display.id d))
                        (display_table app)) as [old|] eqn:Hf2; rcbn;
      [|eexists; repeat (split; [reflexivity|]); left;
        split; [reflexivity|discriminate]].
    eexists. repeat (split; [reflexivity|]). right. exists uid, d.
    apply find_some in Hf as [Hin Hd].
    apply andb_true_iff in Hd as [Hd1 Hd2].
    apply jseqb_eq in Hd1. apply Z.eqb_eq in Hd2.
    repeat split; assumption || reflexivity.
  - destruct (falsy _); rcbn; eexists; repeat (split; [reflexivity|]); left;
      (split; [reflexivity|discriminate]).
Qed.

(** X22. Deleting removes at most one display, and only the caller's own: a
    display that is gone after the request belonged to the account of the
    token and had the [display_id] of the path; nothing is added, the
    accounts are untouched; and after an answer 200 no display has that
    [display_id] any more. *)
Theorem delete_removes_only_own_display (ctx : Ctx) (app : App) :
  displays_consistent app ->
  let app' := snd (delete_display ctx app) in
  (forall d, In d (display_table app) ->
             In d (display_table app') \/
             (authenticated ctx = Some (display.userId d) /\
              display.display_id d = Request.displayId (request ctx))) /\
  incl (display_table app') (display_table app) /\
  user_table app' = user_table app /\
  (forall reply,
      fst (delete_display ctx app) = Resolved reply -> code reply = 200 ->
      forall d, In d (display_table app') ->
                display.display_id d <> Request.displayId (request ctx)).
Proof.
  intros (Hid & Hname & _) app'. subst app'.
  destruct (delete_effect ctx app) as (reply & Hr & Hu & _ & Hd).
  destruct Hd as [(Et & Hne)|(uid & d0 & Ha & Hin0 & E1 & E2 & _ & Et)].
  - rewrite Et. repeat split; try assumption.
    + intros d Hin. now left.
    + intros d Hin. exact Hin.
    + intros reply' Hr' Hc. rewrite Hr in Hr'. inversion Hr'; subst.
      contradiction.
  - rewrite Et. repeat split; try assumption.
    + intros d Hin.
      destruct (Z.eqb (display.id d) (display.id d0)) eqn:E.
      * right. apply Z.eqb_eq in E.
        rewrite (same_key_same_row display.id _ d d0 Hid Hin Hin0 E).
        now rewrite E2.
      * left. apply filter_In. split; [exact Hin|]. now rewrite E.
    + intros d Hin. now apply filter_In in Hin.
    + intros reply' _ _ d Hin E.
      apply filter_In in Hin as [Hin Hne].
      rewrite <- E1 in E.
      rewrite (same_key_same_row display.display_id _ d d0 Hname Hin Hin0 E)
        in Hne.
      rewrite Z.eqb_refl in Hne. discriminate.
Qed.

Lemma sample_app_displays_consistent : displays_consistent sample_app.
Proof.
  unfold displays_consistent, sample_app.
  cbn [display_table display_id_seq map].
  repeat split.
  - repeat constructor; simpl; intuition discriminate.
  - repeat constructor; simpl; intuition discriminate.
  - intros d [<-|[<-|[]]]; reflexivity.
Qed.

Lemma delete_spares_other_account :
  In hall
     (display_table
        (snd (delete_display
                (sample_ctx (bearer 1) empty_body (js "esp-hall") None)
                sample_app))).
Proof.
  destruct (proj1 (@delete_removes_only_own_display
                     (sample_ctx (bearer 1) empty_body (js "esp-hall") None)
                     sample_app sample_app_displays_consistent)
                  hall (or_intror (or_introl eq_refl)))
    as [H|[H _]]; [exact H|].
  vm_compute in H. discriminate H.
Defined.

(** ** Updating *)

Lemma apply_data_keeps d r :
  display.id (apply_data d r) = display.id r /\
  display.userId (apply_data d r) = display.userId r /\
  display.createdAt (apply_data d r) = display.createdAt r.
Proof. repeat split. Qed.








(** ** Reading displays *)



(** ** Samples for the start, the creation and the password change *)



Lemma password_change_spares_bob :
  In bob
     (user_table
        (snd (put_profile_password
                (sample_ctx (bearer 1)
                   (credentials None None (Some (js "looking-glass")))
                   [] None)
                sample_app))).
Proof.
  apply (proj1 (proj2 (proj2 (proj2 (proj2
           (password_change_keeps_identities
              (sample_ctx (bearer 1)
                 (credentials None None (Some (js "looking-glass")))
                 [] None)
              sample_app))))) bob).
  - right. now left.
  - intros H. vm_compute in H. discriminate H.
Defined.
